(** * bBot: thought process, Rocket.Chat adapter, Mongo storage adapter and
      settings

    A shallow embedding of the TypeScript sources of bBot and the properties
    its specification states about them.

    - [Js]          the few JavaScript primitives the sources rely on
    - [Rocketchat]  [Rocketchat.process], [Rocketchat.respond]
                                                    (adapters/rocketchat)
    - [Mongo]       [saveMemory], [loadMemory], [keep], [find], [findOne]
                                                    (src/adapters/mongo.ts)
    - [Thought]     [Thought.process], [Thoughts], [receive], [respond],
                    [dispatch]                      (lib/thought)
    - [Settings]    [loadConfig], [safeName], [get], [set], [extend]
                                                    (src/lib/config.ts)

    Asynchronous code is modelled in its sequential order: every promise in
    these functions is awaited before the next statement runs.  A promise
    is resolved, rejected with an error, rejected with another value, or
    left pending. *)

From stdpp Require Import base strings gmap list pretty.
From Stdlib Require Import ZArith Ascii String.

#[local] Set Warnings "-register-all".

Open Scope string_scope.
Open Scope Z_scope.

(** ** JavaScript primitives *)

Module Js.

(** How a call ends.  It returns; or it throws an [Error] with a message
    (for an asynchronous call: its promise is rejected with the error); or
    its promise is rejected with a value that is not an [Error], [None]
    standing for [undefined] and [null] and [Some] for any other value; or
    its promise never settles. *)
Inductive result (A : Type) : Type :=
| Ok (a : A)
| Throw (msg : string)
| Reject (v : option string)
| Pending.
Arguments Ok {A} a.
Arguments Throw {A} msg.
Arguments Reject {A} v.
Arguments Pending {A}.

#[export] Instance result_ret : MRet result := λ A a, Ok a.
#[export] Instance result_bind : MBind result := λ A B k r,
  match r with
  | Ok a => k a
  | Throw e => Throw e
  | Reject v => Reject v
  | Pending => Pending
  end.

(** [s.indexOf(sub)]: first position of [sub] in [s], or -1. *)
Definition indexOf (s sub : string) : Z :=
  match String.index 0 sub s with
  | Some i => Z.of_nat i
  | None => -1
  end.

(** [for (let k in arr)] over an array enumerates its index keys, as
    strings: "0", "1", ... *)
Definition for_in_keys {A} (arr : list A) : list string :=
  (λ i : nat, pretty i) <$> seq 0 (List.length arr).

(** The keys an object enumerates first: the array indices, which are the
    canonical decimal forms of the integers from 0 to 2^32 - 2. *)
Definition is_digit (c : ascii) : bool :=
  let n := nat_of_ascii c in ((48 <=? n)%nat && (n <=? 57)%nat).

Fixpoint digits_value (acc : Z) (s : string) : Z :=
  match s with
  | EmptyString => acc
  | String c s' => digits_value (acc * 10 + (Z.of_nat (nat_of_ascii c) - 48)) s'
  end.

Definition array_index (k : string) : option Z :=
  match k with
  | EmptyString => None
  | String c k' =>
    if forallb is_digit (list_ascii_of_string k)
       && (negb (Ascii.eqb c "0") || String.eqb k' "")
       && (digits_value 0 k <? 4294967295)
    then Some (digits_value 0 k)
    else None
  end.

Fixpoint insert_index {A} (n : Z) (x : A) (l : list (Z * A)) : list (Z * A) :=
  match l with
  | [] => [(n, x)]
  | (m, y) :: l' => if n <? m then (n, x) :: l else (m, y) :: insert_index n x l'
  end.

(** [for (let k in o)] and [Object.keys (o)] on an object given by its
    properties in the order they were created: the array indices come
    first, in ascending order, then the other keys in the order of their
    creation. *)
Definition for_in {A} (o : list (string * A)) : list (string * A) :=
  let indexed :=
    foldr (λ kv acc, match array_index kv.1 with
                     | Some n => insert_index n kv acc
                     | None => acc
                     end) [] o in
  (snd <$> indexed) ++ filter (λ kv, array_index kv.1 = None) o.

Definition startsWith (s p : string) : bool := String.prefix p s.

Definition endsWith (s p : string) : bool :=
  String.prefix (String.rev p) (String.rev s).

(** [s.replace(pat, rep)] with a string pattern: the first occurrence. *)
Fixpoint replace (pat rep s : string) : string :=
  if String.prefix pat s
  then rep ++ String.substring (String.length pat)
                (String.length s - String.length pat) s
  else match s with
       | EmptyString => EmptyString
       | String c s' => String c (replace pat rep s')
       end.

(** White space of [String.prototype.trim] among the code units below 256:
    TAB, LF, VT, FF, CR, SP and NBSP. *)
Definition is_space (c : ascii) : bool :=
  let n := nat_of_ascii c in
  ((9 <=? n)%nat && (n <=? 13)%nat) || (n =? 32)%nat || (n =? 160)%nat.

Fixpoint trimStart (s : string) : string :=
  match s with
  | EmptyString => EmptyString
  | String c s' => if is_space c then trimStart s' else s
  end.

Definition trim (s : string) : string :=
  String.rev (trimStart (String.rev (trimStart s))).

End Js.

Import Js.

(** ** The Rocket.Chat message adapter *)

Module Rocketchat.

Record User := { id : string; username : string }.

(** The fields of an envelope that [respond] reads.  [None] is
    [undefined]. *)
Record Envelope := {
  strings : option (list string);
  user : option User;
  room_id : option string;
  message_id : option string
}.

(** Calls made on the SDK driver. *)
Inductive Call :=
| sendToRoomId (text roomId : string)
| sendDirectToUser (text username : string)
| setReaction (emoji messageId : string).

(** [!envelope.room.id]: undefined or the empty string. *)
Definition falsy_id (o : option string) : bool :=
  match o with
  | None => true
  | Some s => String.eqb s ""
  end.

Definition react_emoji (emoji : string) : string :=
  let emoji := if startsWith emoji ":" then emoji else ":" ++ emoji in
  let emoji := if endsWith emoji ":" then emoji else emoji ++ ":" in
  replace "-" "_" emoji.

(** [respond (envelope, method)]: the envelope as the call leaves it, and
    the driver calls in order. *)
Definition respond (envelope : Envelope) (method : string)
  : result (Envelope * list Call) :=
  if String.eqb method "send" then
    match strings envelope with
    | None => Throw "Sending without strings"
    | Some ss =>
      if falsy_id (room_id envelope) then Throw "Sending without room ID"
      else Ok (envelope,
               (λ text, sendToRoomId text (default "" (room_id envelope)))
                 <$> for_in_keys ss)
    end
  else if String.eqb method "dm" then
    match strings envelope, user envelope with
    | None, _ => Throw "DM without strings"
    | Some _, None => Throw "DM without user"
    | Some ss, Some u =>
      Ok (envelope, (λ text, sendDirectToUser text (username u)) <$> for_in_keys ss)
    end
  else if String.eqb method "reply" then
    match strings envelope, user envelope with
    | None, _ => Throw "Reply without strings"
    | Some _, None => Throw "Reply without user"
    | Some ss, Some u =>
      if falsy_id (room_id envelope) then Throw "Reply without room ID"
      else
        let rid := default "" (room_id envelope) in
        let ss' :=
          if indexOf rid (id u) =? -1
          then (λ s, "@" ++ username u ++ " " ++ s) <$> ss
          else ss in
        Ok ({| strings := Some ss'; user := user envelope;
               room_id := room_id envelope; message_id := message_id envelope |},
            (λ text, sendToRoomId text rid) <$> for_in_keys ss')
    end
  else if String.eqb method "react" then
    match strings envelope, message_id envelope with
    | None, _ => Throw "React without strings"
    | Some _, None => Throw "React without message"
    | Some ss, Some mid =>
      Ok (envelope, (λ emoji, setReaction (react_emoji emoji) mid) <$> for_in_keys ss)
    end
  else Throw ("Rocket.Chat adapter has no " ++ method ++ " handler").

(** What the contract of a reply asks the adapter to send. *)
Definition reply_texts (u : User) (rid : string) (ss : list string) : list string :=
  if indexOf rid (id u) =? -1
  then (λ s, "@" ++ username u ++ " " ++ s) <$> ss
  else ss.

Definition sent_texts (cs : list Call) : list string :=
  (λ c, match c with
        | sendToRoomId t _ | sendDirectToUser t _ | setReaction t _ => t
        end) <$> cs.

(** *** Incoming messages *)

(** The fields of a message of the subscription that [process] reads, and
    the meta data the driver adds. *)
Record Incoming := {
  u_id : string;
  u_username : string;
  alias : option string;
  rid : string;
  msg_roomType : option string;
  t : option string;
  msg : string;
  attachments : option (list string);
  text : option string;
  msg_id : string
}.

Record Meta := { roomType : option string; roomName : option string }.

(** [bot.name] and [bot.alias] *)
Record Bot := { bot_name : string; bot_alias : option string }.

(** The user [bot.userById] is asked for: the id and the meta data. *)
Record HeardUser := {
  hu_id : string;
  hu_name : string;
  hu_alias : option string;
  hu_room_id : string;
  hu_room_type : option string;
  hu_room_name : option string
}.

(** The message handed to [bot.hear]. *)
Inductive Heard :=
| EnterMessage (user : HeardUser) (id : string)
| LeaveMessage (user : HeardUser) (id : string)
| RichMessage (user : HeardUser) (attachments : list string)
    (text : option string) (id : string)
| TextMessage (user : HeardUser) (text : string) (id : string).

Definition is_type (o : option string) (v : string) : bool :=
  match o with
  | Some s => String.eqb s v
  | None => false
  end.

(** [message.msg.indexOf (bot.name) === startOfText ||
     message.msg.indexOf (bot.alias) === startOfText]; the search for an
    undefined alias is the search for the text "undefined". *)
Definition robotIsNamed (bot : Bot) (msg : string) : bool :=
  let startOfText := if indexOf msg "@" =? 0 then 1 else 0 in
  (indexOf msg (bot_name bot) =? startOfText)
  || (indexOf msg (default "undefined" (bot_alias bot)) =? startOfText).

(** [process (err, message, meta)] *)
Definition process (bot : Bot) (err : option string) (message : Incoming)
    (meta : Meta) : result Heard :=
  match err with
  | Some e => Throw e
  | None =>
    let isDM := is_type (roomType meta) "d" in
    let isLC := is_type (roomType meta) "l" in
    let user := {| hu_id := u_id message; hu_name := u_username message;
                   hu_alias := alias message; hu_room_id := rid message;
                   hu_room_type := msg_roomType message;
                   hu_room_name := roomName meta |} in
    if is_type (t message) "uj" then Ok (EnterMessage user (msg_id message))
    else if is_type (t message) "ul" then Ok (LeaveMessage user (msg_id message))
    else
      let msg' :=
        if (isDM || isLC) && negb (robotIsNamed bot (msg message))
        then bot_name bot ++ " " ++ msg message
        else msg message in
      match attachments message with
      | Some (a :: atts) =>
        Ok (RichMessage user (a :: atts) (text message) (msg_id message))
      | _ => Ok (TextMessage user msg' (msg_id message))
      end
  end.

(** A text addresses the bot by a name when the name stands at its start,
    or, in a text that starts with [@], right after the [@] (and not at the
    very start as well). *)
Definition addressed_by (name text : string) : bool :=
  match text with
  | String "@" rest => negb (String.prefix name text) && String.prefix name rest
  | _ => String.prefix name text
  end.

(** The names the bot answers to in [process]: its name and its alias, and
    the word [undefined] in place of an alias that is not set. *)
Definition answers_to (bot : Bot) : list string :=
  [bot_name bot; default "undefined" (bot_alias bot)].


(** Whom a method addresses: the user for [dm], the message for [react],
    the room otherwise. *)
Definition addressee (envelope : Envelope) (method : string) : string :=
  if String.eqb method "dm" then default "" (username <$> user envelope)
  else if String.eqb method "react" then default "" (message_id envelope)
  else default "" (room_id envelope).

(** Whom a driver call addresses: a room id, a user name or a message id. *)
Definition call_target (c : Call) : string :=
  match c with
  | sendToRoomId _ r => r
  | sendDirectToUser _ u => u
  | setReaction _ m => m
  end.

End Rocketchat.

(** ** The Mongo storage adapter *)

Module Mongo.

(** Data kept in the store ([data: any]).  An object is the list of its
    own properties in enumeration order (keys unique); the order matters
    to [for (let key in params)]. *)
Inductive JsVal :=
| VUndef
| VNull
| VBool (b : bool)
| VNum (z : Z)
| VStr (s : string)
| VObj (fields : list (string * JsVal))
| VArr (items : list JsVal).

Abbreviation Obj := (list (string * JsVal)).

(** Structural equality, the way the database compares a stored value
    with the value of a query condition. *)
Fixpoint val_eqb (a b : JsVal) {struct a} : bool :=
  match a, b with
  | VUndef, VUndef | VNull, VNull => true
  | VBool x, VBool y => Bool.eqb x y
  | VNum x, VNum y => x =? y
  | VStr x, VStr y => String.eqb x y
  | VObj fs, VObj gs =>
    (fix go (fs gs : list (string * JsVal)) : bool :=
       match fs, gs with
       | [], [] => true
       | (k, v) :: fs', (k', v') :: gs' =>
         String.eqb k k' && val_eqb v v' && go fs' gs'
       | _, _ => false
       end) fs gs
  | VArr xs, VArr ys =>
    (fix go (xs ys : list JsVal) : bool :=
       match xs, ys with
       | [], [] => true
       | x :: xs', y :: ys' => val_eqb x y && go xs' ys'
       | _, _ => false
       end) xs ys
  | _, _ => false
  end.

(** [a === b] where [a] was read from the database and [b] comes from the
    caller: primitives compare by value, objects and arrays by reference,
    and a value just read is never the caller's object. *)
Definition strict_eq (a b : JsVal) : bool :=
  match a, b with
  | VObj _, _ | VArr _, _ => false
  | _, _ => val_eqb a b
  end.

Definition truthy (v : JsVal) : bool :=
  match v with
  | VUndef | VNull | VBool false | VStr "" => false
  | VNum z => negb (z =? 0)
  | _ => true
  end.

(** [o[k]] on the property list of an object: [None] when [k] is absent. *)
Fixpoint obj_lookup (k : string) (o : Obj) : option JsVal :=
  match o with
  | [] => None
  | (k', v) :: o' => if String.eqb k k' then Some v else obj_lookup k o'
  end.

(** [o[k] = v]: an existing key keeps its place, a new one goes last. *)
Fixpoint obj_set (k : string) (v : JsVal) (o : Obj) : Obj :=
  match o with
  | [] => [(k, v)]
  | (k', v') :: o' =>
    if String.eqb k k' then (k, v) :: o' else (k', v') :: obj_set k v o'
  end.

(** The enumerable own properties [for (let k in v)] walks. *)
Definition own_entries (v : JsVal) : Obj :=
  match v with
  | VObj fs => fs
  | VArr xs => zip (for_in_keys xs) xs
  | VStr s =>
    let cs := (λ c, VStr (String c EmptyString)) <$> list_ascii_of_string s in
    zip (for_in_keys cs) cs
  | _ => []
  end.

(** The names the built-in prototypes define: those of [Object.prototype],
    which every value that has properties inherits, and those of the
    prototypes of arrays, strings, numbers and booleans. *)
Definition object_names : list string :=
  ["constructor"; "__defineGetter__"; "__defineSetter__"; "hasOwnProperty";
   "__lookupGetter__"; "__lookupSetter__"; "isPrototypeOf";
   "propertyIsEnumerable"; "toString"; "valueOf"; "__proto__"; "toLocaleString"].

Definition array_names : list string :=
  ["at"; "concat"; "copyWithin"; "fill"; "find"; "findIndex"; "findLast";
   "findLastIndex"; "lastIndexOf"; "pop"; "push"; "reverse"; "shift"; "unshift";
   "slice"; "sort"; "splice"; "includes"; "indexOf"; "join"; "keys"; "entries";
   "values"; "forEach"; "filter"; "flat"; "flatMap"; "map"; "every"; "some";
   "reduce"; "reduceRight"; "toReversed"; "toSorted"; "toSpliced"; "with"].

Definition string_names : list string :=
  ["anchor"; "at"; "big"; "blink"; "bold"; "charAt"; "charCodeAt"; "codePointAt";
   "concat"; "endsWith"; "fontcolor"; "fontsize"; "fixed"; "includes"; "indexOf";
   "isWellFormed"; "italics"; "lastIndexOf"; "link"; "localeCompare"; "match";
   "matchAll"; "normalize"; "padEnd"; "padStart"; "repeat"; "replace";
   "replaceAll"; "search"; "slice"; "small"; "split"; "strike"; "sub"; "substr";
   "substring"; "sup"; "startsWith"; "trim"; "trimStart"; "trimLeft"; "trimEnd";
   "trimRight"; "toLocaleLowerCase"; "toLocaleUpperCase"; "toLowerCase";
   "toUpperCase"; "toWellFormed"].

Definition number_names : list string :=
  ["toExponential"; "toFixed"; "toPrecision"].

Definition inherited (item : JsVal) (key : string) : bool :=
  bool_decide (key ∈ object_names)
  || match item with
     | VArr _ => bool_decide (key ∈ array_names)
     | VStr _ => bool_decide (key ∈ string_names)
     | VNum _ => bool_decide (key ∈ number_names)
     | _ => false
     end.

(** What [item[key]] reads: a data value, or a method or accessor of a
    built-in prototype, which is not data. *)
Inductive Property :=
| Data (v : JsVal)
| Builtin (name : string).

(** [item[key]]: an own property (for an array or a string: an index or
    [length]), else an inherited one, else [undefined]; reading a property
    of [null] or [undefined] is a TypeError. *)
Definition get_prop (item : JsVal) (key : string) : result Property :=
  match item with
  | VUndef | VNull => Throw "TypeError: cannot read property"
  | _ =>
    match obj_lookup key (own_entries item) with
    | Some v => Ok (Data v)
    | None =>
      match item with
      | VArr xs =>
        if String.eqb key "length" then Ok (Data (VNum (Z.of_nat (List.length xs))))
        else if inherited item key then Ok (Builtin key) else Ok (Data VUndef)
      | VStr s =>
        if String.eqb key "length" then Ok (Data (VNum (Z.of_nat (String.length s))))
        else if inherited item key then Ok (Builtin key) else Ok (Data VUndef)
      | _ => if inherited item key then Ok (Builtin key) else Ok (Data VUndef)
      end
    end
  end.

(** [item[key] === value], for a value of the caller's data. *)
Definition prop_is (p : Property) (value : JsVal) : bool :=
  match p with
  | Data v => strict_eq v value
  | Builtin _ => false
  end.

(** Documents of the model: [{ type, sub, data }]. *)
Record Doc := { type : string; sub : string; data : JsVal }.

Abbreviation Db := (list Doc).

(** The schema declares [sub: { type: String, lowercase: true }]. *)
Definition lower_ascii (c : ascii) : ascii :=
  let n := nat_of_ascii c in
  if ((65 <=? n)%nat && (n <=? 90)%nat)
     || ((192 <=? n)%nat && (n <=? 222)%nat && negb (n =? 215)%nat)
  then ascii_of_nat (n + 32) else c.

Fixpoint toLowerCase (s : string) : string :=
  match s with
  | EmptyString => EmptyString
  | String c s' => String (lower_ascii c) (toLowerCase s')
  end.

Definition is_doc (sub_ type_ : string) (d : Doc) : bool :=
  String.eqb (sub d) sub_ && String.eqb (type d) type_.

(** [model.findOneAndUpdate({ sub, type }, update, { upsert: true })]: the
    first document of that sub and type is updated, and one is inserted
    when there is none. *)
Fixpoint findOneAndUpdate (sub_ type_ : string) (update : option JsVal → JsVal)
    (db : Db) : Db :=
  match db with
  | [] => [{| type := type_; sub := sub_; data := update None |}]
  | d :: db' =>
    if is_doc sub_ type_ d
    then {| type := type d; sub := sub d; data := update (Some (data d)) |} :: db'
    else d :: findOneAndUpdate sub_ type_ update db'
  end.

(** [saveMemory (data)] *)
Definition saveMemory (data : Obj) (db : Db) : Db :=
  foldl (λ db '(sub_, v), findOneAndUpdate (toLowerCase sub_) "memory" (λ _, v) db)
        db data.

(** [keep (sub, data)]: [$push] on the serial store of [sub]. *)
Definition keep (sub_ : string) (item : JsVal) (db : Db) : Db :=
  findOneAndUpdate (toLowerCase sub_) "store"
    (λ old, match old with
            | Some (VArr xs) => VArr (xs ++ [item])
            | Some v => v
            | None => VArr [item]
            end) db.




Section WithUser.

(** [new bot.User (record)]: the user class is not part of this file. *)
Variable User : JsVal → JsVal.

(** [memory.users[id] = new User (record)] *)
Definition users_set (id : string) (record : JsVal) (memory : Obj) : Obj :=
  match obj_lookup "users" memory with
  | Some (VObj us) => obj_set "users" (VObj (obj_set id (User record) us)) memory
  | _ => memory
  end.

Definition load_doc (memory : Obj) (doc : Doc) : Obj :=
  if String.eqb (sub doc) "users" then
    let memory :=
      if truthy (default VUndef (obj_lookup (sub doc) memory)) then memory
      else obj_set (sub doc) (VObj []) memory in
    foldl (λ memory '(id, record), users_set id record memory)
          memory (own_entries (data doc))
  else obj_set (sub doc) (data doc) memory.

(** [loadMemory ()]: [None] is [undefined]. *)
Definition loadMemory (db : Db) : option Obj :=
  let docs := filter (λ d, type d = "memory") db in
  Some (foldl load_doc [] docs).


End WithUser.

(** A query condition [{ key: value }] on one element: equality, where a
    [null] condition also matches a missing field. *)
Definition field_matches (item : Obj) (cond : string * JsVal) : bool :=
  match obj_lookup cond.1 item, cond.2 with
  | None, VNull => true
  | None, _ => false
  | Some v, c => val_eqb v c
  end.

(** [{ $elemMatch: params }] on one array element. *)
Definition elemMatch (params : Obj) (item : JsVal) : bool :=
  match item with
  | VObj fs => forallb (field_matches fs) params
  | _ => false
  end.

(** [model.findOne({ sub, data: { $elemMatch: params }, type: 'store' })] *)
Definition findOne_doc (sub_ : string) (params : Obj) (db : Db) : option Doc :=
  List.find (λ d, is_doc (toLowerCase sub_) "store" d
                  && match data d with
                     | VArr xs => existsb (elemMatch params) xs
                     | _ => false
                     end) db.

(** The callback of [doc.data.filter] in [find]. *)
Definition match_item (params : Obj) (item : JsVal) : result bool :=
  foldl (λ (acc : result bool) '(key, pv),
           _ ← acc; p ← get_prop item key; Ok (prop_is p pv))
        (Ok false) params.

Fixpoint filter_items (params : Obj) (items : list JsVal) : result (list JsVal) :=
  match items with
  | [] => Ok []
  | item :: items' =>
    keepit ← match_item params item;
    rest ← filter_items params items';
    Ok (if keepit : bool then item :: rest else rest)
  end.

(** [find (sub, params)]: [Ok None] is [undefined]. *)
Definition find (sub_ : string) (params : Obj) (db : Db)
  : result (option (list JsVal)) :=
  match findOne_doc sub_ params db with
  | None => Ok None
  | Some doc =>
    match data doc with
    | VArr items =>
      matching ← filter_items params items;
      Ok (Some matching)
    | _ => Throw "TypeError: doc.data.filter is not a function"
    end
  end.

(** [findOne (sub, params)]: the projection [data.$] keeps the first
    element that satisfied the [$elemMatch]; [None] is [undefined]. *)
Definition findOne (sub_ : string) (params : Obj) (db : Db) : option JsVal :=
  match findOne_doc sub_ params db with
  | None => None
  | Some doc =>
    match data doc with
    | VArr xs => Some (default VUndef (List.find (elemMatch params) xs))
    | _ => Some VUndef
    end
  end.

(** Shallow key equality of an element on every key of the parameters,
    as the specification words it. *)
Definition shallow_equal (params : Obj) (item : JsVal) : bool :=
  forallb (λ '(key, pv),
             match get_prop item key with
             | Ok p => prop_is p pv
             | _ => false
             end) params.

(** A store the adapter can have built: one document per sub and type, and
    a list as the data of every serial store. *)
Definition doc_key (d : Doc) : string * string := (sub d, type d).

Definition unique_docs (db : Db) : Prop := NoDup (doc_key <$> db).

Definition store_lists (db : Db) : Prop :=
  ∀ d, d ∈ db → type d = "store" → ∃ xs, data d = VArr xs.

(** The list kept under [sub], when there is one. *)
Definition stored (sub_ : string) (db : Db) : option (list JsVal) :=
  match List.find (is_doc (toLowerCase sub_) "store") db with
  | Some {| data := VArr xs |} => Some xs
  | _ => None
  end.

End Mongo.

(** ** The thought process *)

Module Thought.

(** *** Messages, envelopes, state *)

Record User := { user_id : string; user_name : string; user_room : string }.

(** The provider-shaped result of the NLU adapter: a mapping from a key
    (intents, entities, ...) to its results. *)
Definition NluRaw := list (string * list string).

Record NLU := { nlu_results : NluRaw }.

Inductive Message :=
| Text (user : User) (text : string) (id : string) (nlu : option NLU)
| Enter (user : User) (id : string)
| Leave (user : User) (id : string)
| Rich (user : User) (payload : string) (id : string)
| Server (user : User) (data : string) (id : string)
| CatchAll (original : Message).

Fixpoint message_user (m : Message) : User :=
  match m with
  | Text u _ _ _ | Enter u _ | Leave u _ | Rich u _ _ | Server u _ _ => u
  | CatchAll m' => message_user m'
  end.

(** [message instanceof message.Text] *)
Definition is_Text (m : Message) : bool :=
  match m with Text _ _ _ _ => true | _ => false end.

Definition toString (m : Message) : string :=
  match m with Text _ t _ _ => t | _ => "" end.

Definition set_nlu (m : Message) (n : NLU) : Message :=
  match m with Text u t i _ => Text u t i (Some n) | _ => m end.

(** [message.nlu] *)
Definition message_nlu (m : Message) : option NLU :=
  match m with Text _ _ _ n => n | _ => None end.

(** [message.id] *)
Fixpoint message_id (m : Message) : string :=
  match m with
  | Text _ _ i _ | Enter _ i | Leave _ i | Rich _ _ i | Server _ _ i => i
  | CatchAll m' => message_id m'
  end.

Record Envelope := {
  env_id : string;
  method : string;
  room : string;
  strings : list string;
  branchId : option string;
  responded : option Z
}.

Record Branch := { branch_id : string; force : bool }.

(** [{ [id: string]: Branch }]: the branches under their ids, in the order
    of insertion (ids unique).  [for_in] gives the order in which the
    object enumerates them. *)
Abbreviation Branches := (list (string * Branch)).

Record Path := {
  listen : Branches;
  understand : Branches;
  serve : Branches;
  act : Branches
}.

Record State := {
  message : option Message;
  envelopes : option (list Envelope);
  sequence : option string;
  processed : gmap string Z;
  matched : bool;
  done : bool;
  exit : bool;
  branch : option Branch
}.

Definition set_message (m : option Message) (s : State) : State :=
  {| message := m; envelopes := envelopes s; sequence := sequence s;
     processed := processed s; matched := matched s; done := done s;
     exit := exit s; branch := branch s |}.

Definition set_envelopes (e : option (list Envelope)) (s : State) : State :=
  {| message := message s; envelopes := e; sequence := sequence s;
     processed := processed s; matched := matched s; done := done s;
     exit := exit s; branch := branch s |}.

Definition set_sequence (q : option string) (s : State) : State :=
  {| message := message s; envelopes := envelopes s; sequence := q;
     processed := processed s; matched := matched s; done := done s;
     exit := exit s; branch := branch s |}.

Definition set_processed (p : gmap string Z) (s : State) : State :=
  {| message := message s; envelopes := envelopes s; sequence := sequence s;
     processed := p; matched := matched s; done := done s;
     exit := exit s; branch := branch s |}.

(** Modelled from the spec: [state.create ({ message })], a fresh state
    for one run (the state module is not part of the sources at hand). *)
Definition state_create (m : option Message) (es : option (list Envelope)) : State :=
  {| message := m; envelopes := es; sequence := None; processed := ∅;
     matched := false; done := false; exit := false; branch := None |}.

(** Modelled from the spec: [finish ()] sets [done]. *)
Definition finish (s : State) : State :=
  {| message := message s; envelopes := envelopes s; sequence := sequence s;
     processed := processed s; matched := matched s; done := true;
     exit := exit s; branch := branch s |}.

(** Modelled from the spec: the helpers of the outbound queue.  An
    envelope is pending until it has been responded. *)
Definition pendingEnvelope (s : State) : option (nat * Envelope) :=
  list_find (λ e, responded e = None) (default [] (envelopes s)).

Definition dispatchedEnvelope (s : State) : option Envelope :=
  snd <$> list_find (λ e, responded e ≠ None) (default [] (envelopes s)).

(** *** Paths and dialogues *)

Definition empty_path : Path :=
  {| listen := []; understand := []; serve := []; act := [] |}.

(** Modelled from the spec: [forced (stage)] keeps the force-marked
    branches of that stage; [hasBranches ()] tells whether any stage has a
    branch. *)
Definition forced_understand (p : Path) : Path :=
  {| listen := listen p;
     understand := filter (λ kb, force kb.2 = true) (understand p);
     serve := serve p; act := act p |}.

Definition hasBranches (p : Path) : bool :=
  negb (bool_decide ((listen p ++ understand p ++ serve p ++ act p)%list = [])).

Record Dialogue := { path : Path; previousPath : option Path; audienceKey : string }.

Record Adapters := {
  nlu_adapter : option string;
  storage_adapter : option string;
  message_adapter : option string
}.

(** Everything a callback can reach: the state [b] of the run, the
    adapters and settings, the user directory, the dialogue objects (by
    reference) with the registry of engaged audiences, the global path and
    the clock read by [Date.now ()]. *)
Record World := {
  b : State;
  adapters : Adapters;
  settings : gmap string Z;
  users : gmap string User;
  dialogues : gmap nat Dialogue;
  engagements : gmap string nat;
  global : Path;
  now : Z
}.

Definition set_b (s : State) (w : World) : World :=
  {| b := s; adapters := adapters w; settings := settings w; users := users w;
     dialogues := dialogues w; engagements := engagements w;
     global := global w; now := now w |}.

Definition set_users (u : gmap string User) (w : World) : World :=
  {| b := b w; adapters := adapters w; settings := settings w; users := u;
     dialogues := dialogues w; engagements := engagements w;
     global := global w; now := now w |}.

Definition set_dialogues (d : gmap nat Dialogue) (w : World) : World :=
  {| b := b w; adapters := adapters w; settings := settings w; users := users w;
     dialogues := d; engagements := engagements w;
     global := global w; now := now w |}.

Definition set_engagements (e : gmap string nat) (w : World) : World :=
  {| b := b w; adapters := adapters w; settings := settings w; users := users w;
     dialogues := dialogues w; engagements := e;
     global := global w; now := now w |}.

(** Two states that differ at most in their message. *)
Definition same_but_message (s s' : State) : Prop :=
  envelopes s' = envelopes s ∧ sequence s' = sequence s
  ∧ processed s' = processed s ∧ matched s' = matched s ∧ done s' = done s
  ∧ exit s' = exit s ∧ branch s' = branch s.

(** Two worlds that differ at most in the state of the run. *)
Definition same_but_state (w w' : World) : Prop :=
  adapters w' = adapters w ∧ settings w' = settings w ∧ users w' = users w
  ∧ dialogues w' = dialogues w ∧ engagements w' = engagements w
  ∧ global w' = global w ∧ now w' = now w.

(** Two worlds that differ at most in the user directory. *)
Definition same_but_users (w w' : World) : Prop :=
  b w' = b w ∧ adapters w' = adapters w ∧ settings w' = settings w
  ∧ dialogues w' = dialogues w ∧ engagements w' = engagements w
  ∧ global w' = global w ∧ now w' = now w.

(** Modelled from the spec: [user.byId (id, meta)] records the user in the
    directory under its id. *)
Definition user_byId (id : string) (meta : User) (w : World) : World :=
  set_users (<[id := meta]> (users w)) w.

(** Modelled from the spec: [progressPath ()] sets the current path aside
    as [previousPath], installs a fresh empty path for the branches that
    callbacks add, and hands the path set aside to the run ([receive] calls
    the previous path "the one that was just processed"). *)
Definition progressPath (dlg : nat) (w : World) : option Path * World :=
  match dialogues w !! dlg with
  | Some d =>
    (Some (path d),
     set_dialogues (<[dlg := {| path := empty_path; previousPath := Some (path d);
                                audienceKey := audienceKey d |}]> (dialogues w)) w)
  | None => (None, w)
  end.

(** Modelled from the spec: [revertPath ()] restores [previousPath]. *)
Definition revertPath (dlg : nat) (w : World) : World :=
  match dialogues w !! dlg with
  | Some d =>
    match previousPath d with
    | Some p =>
      set_dialogues (<[dlg := {| path := p; previousPath := None;
                                 audienceKey := audienceKey d |}]> (dialogues w)) w
    | None => w
    end
  | None => w
  end.

(** Modelled from the spec: [close ()] removes the dialogue from the
    registry of engaged audiences. *)
Definition close (dlg : nat) (w : World) : World :=
  match dialogues w !! dlg with
  | Some d => set_engagements (delete (audienceKey d) (engagements w)) w
  | None => w
  end.

Definition dlg_hasBranches (dlg : nat) (w : World) : bool :=
  match dialogues w !! dlg with
  | Some d => hasBranches (path d)
  | None => false
  end.

Definition path_create (init : option Path) (w : World) : Path :=
  default (global w) init.

(** *** Effects: state passing with thrown errors and rejections *)

Definition SE (S A : Type) : Type := S → result A * S.

#[export] Instance SE_ret {S} : MRet (SE S) := λ A a s, (Ok a, s).
#[export] Instance SE_bind {S} : MBind (SE S) := λ A B k m s,
  match m s with
  | (Ok a, s') => k a s'
  | (Throw e, s') => (Throw e, s')
  | (Reject v, s') => (Reject v, s')
  | (Pending, s') => (Pending, s')
  end.

Definition get {S} : SE S S := λ s, (Ok s, s).
Definition modify {S} (f : S → S) : SE S unit := λ s, (Ok (), f s).
Definition throw {S A} (e : string) : SE S A := λ s, (Throw e, s).

(** A [Thoughts] instance owns the state [b] (in the world) and its own
    copy of the path. *)
Record Ctx := { world : World; tpath : Path }.

(** The observable steps of a run: a branch handed to [branch.process]
    (with the state it saw on entry), and the call of a stage's action
    (with the state it was given). *)
Inductive Event :=
| Evaluated (stage id : string) (entry : State)
| Acted (stage : string) (success : bool) (given : State).

Record Run := { ctx : Ctx; trace : list Event }.



(** The ids of the branches evaluated in a trace, in order. *)
Definition evaluated_ids (tr : list Event) : list string :=
  omap (λ e, match e with Evaluated _ id _ => Some id | Acted _ _ _ => None end) tr.

(** The calls of actions in a trace, in order: the stage, the success it
    was called with, and whether the state given was matched. *)
Definition actions (tr : list Event) : list (string * bool * bool) :=
  omap (λ e, match e with
             | Acted n s given => Some (n, s, matched given)
             | Evaluated _ _ _ => None
             end) tr.


Definition in_world {A} (m : SE World A) : SE Ctx A := λ c,
  let '(r, w) := m (world c) in (r, {| world := w; tpath := tpath c |}).

Definition in_ctx {A} (m : SE Ctx A) : SE Run A := λ r,
  let '(a, c) := m (ctx r) in (a, {| ctx := c; trace := trace r |}).

Definition emit (e : Event) : SE Run unit := λ r,
  (Ok (), {| ctx := ctx r; trace := (trace r ++ [e])%list |}).

Definition state_of (r : Run) : State := b (world (ctx r)).

(** *** Middleware *)

(** A piece passes control on, completes early, throws an [Error], or
    rejects with a value that is not one ([None]: [undefined] or [null]). *)
Inductive PieceOutcome :=
| Next
| Done
| Raise (msg : string)
| Refuse (v : option string).

Definition Piece := World → PieceOutcome * World.
Definition Middleware := list Piece.

(** Modelled from the spec: [middleware.execute (b, terminal)] runs the
    pieces in registration order; the terminal runs (result [true]) only if
    every piece called [next]. *)
Fixpoint execute (pieces : Middleware) : SE World bool :=
  match pieces with
  | [] => mret true
  | p :: ps => λ w,
    let '(o, w') := p w in
    match o with
    | Next => execute ps w'
    | Done => (Ok false, w')
    | Raise e => (Throw e, w')
    | Refuse v => (Reject v, w')
    end
  end.

(** The collaborators of the thought process that live outside it: the
    middleware registry, branches, the adapters, the audience of a
    dialogue and the envelope factory.  The NLU adapter answers with the
    provider's result ([None] for nothing) or fails; the other calls may
    change anything a callback can reach, and end in any of the ways a
    call can end. *)
Class Hooks := {
  middleware_get : string → option Middleware;
  branch_process : Branch → Middleware → SE World unit;
  nlu_process : Message → World → result (option NluRaw);
  message_dispatch : Envelope → SE World unit;
  store_keep : string → State → SE World unit;
  audience : State → option string;
  envelope_create : World → Envelope
}.

(** *** Thought *)

(** [validate] may be an async function, whose failure is a rejected
    promise, or an ordinary one ([o_validate_sync]), whose failure is thrown
    from the call itself. *)
Record IThought := {
  o_name : string;
  o_validate : option (SE Ctx bool);
  o_validate_sync : bool;
  o_action : option (bool → SE Ctx unit);
  o_branches : option (Path → Branches);
  o_middleware : option Middleware
}.

(** [branches] reads the collection the stage was given out of the path of
    its [Thoughts]: the stage holds a reference to it, not a copy. *)
Record Thought := {
  name : string;
  validate : SE Ctx bool;
  validate_sync : bool;
  action : bool → SE Ctx unit;
  middleware : Middleware;
  branches : option (Path → Branches)
}.

Section WithHooks.

Context {hooks : Hooks}.

Definition new_Thought (options : IThought) : result Thought :=
  let mk mw :=
    Ok {| name := o_name options;
          validate := default (mret true) (o_validate options);
          validate_sync := o_validate_sync options;
          action := default (λ _, mret ()) (o_action options);
          middleware := mw;
          branches := o_branches options |} in
  match o_middleware options with
  | Some mw => mk mw
  | None =>
    match middleware_get (o_name options) with
    | Some mw => mk mw
    | None => Throw "[thought] invalid middleware provided"
    end
  end.

(** [if (!b.processed[name]) b.processed[name] = Date.now ()] *)
Definition stamp (name : string) (w : World) : World :=
  match processed (b w) !! name with
  | Some t =>
    if t =? 0 then set_b (set_processed (<[name := now w]> (processed (b w))) (b w)) w
    else w
  | None => set_b (set_processed (<[name := now w]> (processed (b w))) (b w)) w
  end.

(** The body of the loop over the branches, for those still to visit:
    [if (b.done) break; await branches[id].process (b, middleware)]. *)
Fixpoint visit (stage : string) (mw : Middleware) (bs : Branches)
  : SE Run unit :=
  match bs with
  | [] => mret ()
  | (id, br) :: bs' =>
    r ← get;
    if done (state_of r) then mret ()
    else
      emit (Evaluated stage id (state_of r));;
      in_ctx (in_world (branch_process br mw));;
      visit stage mw bs'
  end.

(** [for (let id in branches) { if (b.done) break; await branches[id].process
    (b, middleware) }]: the branches are visited in the order in which the
    object enumerates them. *)
Definition run_branches (stage : string) (mw : Middleware) (branches : Branches)
  : SE Run unit :=
  visit stage mw (for_in branches).

(** The handler [.catch ((err) => { logger.debug (`... ${err.message}`);
    reject (err) })] of the inner chain: reading [message] of [undefined]
    or [null] throws inside the handler, so that [reject] is not reached
    and the promise of [process] is left pending. *)
Definition caught {S A} (m : SE S A) : SE S A := λ s,
  match m s with
  | (Reject None, s') => (Pending, s')
  | o => o
  end.

(** The promise inside [process].  It resolves ([Ok true]); or it is
    rejected with a value that is not an [Error] ([Ok false] for the
    [reject ()] of the code itself and for the [.then (reject)] after the
    middleware, [Reject v] for a value a callback failed with); or it is
    rejected with an [Error] ([Throw]); or it is left pending. *)
Definition attempt (t : Thought) : SE Run bool :=
  let iterate : SE Run bool :=
    match branches t with
    | None => in_ctx (in_world (execute (middleware t)))
    | Some collection =>
      r ← get;
      run_branches (name t) (middleware t) (collection (tpath (ctx r)));;
      r' ← get;
      mret (matched (state_of r'))
    end in
  let body : SE Run bool := λ r,
    match in_ctx (validate t) r with
    | (Ok valid, r1) => if valid : bool then caught iterate r1 else (Ok false, r1)
    | (Reject v, r1) =>
      if validate_sync t then (Reject v, r1) else caught (λ r, (Reject v, r)) r1
    | o => o
    end in
  match branches t with
  | Some collection =>
    r ← get;
    if bool_decide (for_in (collection (tpath (ctx r))) = []) then mret false
    else if done (state_of r) then mret false
    else body
  | None => body
  end.

(** [action (false)], in the last handler of [process]. *)
Definition on_reject (t : Thought) : SE Run unit :=
  r ← get;
  emit (Acted (name t) false (state_of r));;
  in_ctx (action t false).

(** [action (true)], after the timestamp. *)
Definition on_resolve (t : Thought) : SE Run unit :=
  in_ctx (in_world (modify (stamp (name t))));;
  r ← get;
  emit (Acted (name t) true (state_of r));;
  in_ctx (action t true).

(** [process ()].  The last handler, [.catch ((err) => { if (err instanceof
    Error) throw err; return this.action (false) })], follows the call of
    [action (true)] too: when that call fails with a value that is not an
    [Error], [action (false)] is called as well. *)
Definition process (t : Thought) : SE Run unit := λ r,
  if exit (state_of r) then (Ok (), r)
  else
    match attempt t r with
    | (Ok true, r1) =>
      match on_resolve t r1 with
      | (Reject _, r2) => on_reject t r2
      | o => o
      end
    | (Ok false, r1) | (Reject _, r1) => on_reject t r1
    | (Throw e, r1) => (Throw e, r1)
    | (Pending, r1) => (Pending, r1)
    end.

(** The call of the action with [success] on a run: the call is noted with
    the state it is given, and the run ends as the action does. *)
Definition called (t : Thought) (success : bool) (r : Run) : result unit * Run :=
  let '(a, c) := action t success (ctx r) in
  (a, {| ctx := c;
         trace := (trace r ++ [Acted (name t) success (state_of r)])%list |}).

(** Following the specification: the branches are handed to
    [branch.process] one after the other, each on the world the one before
    left; the iteration halts before the first branch that would be entered
    with [done] set, and at a branch that does not return.  [handed] lists
    the branches handed over, each with the state it was entered with. *)
Inductive iterated (mw : Middleware)
  : Branches → World → list (string * State) → result unit → World → Prop :=
| iterated_end (w : World) :
    iterated mw [] w [] (Ok ()) w
| iterated_halt (id : string) (br : Branch) (bs : Branches) (w : World) :
    done (b w) = true →
    iterated mw ((id, br) :: bs) w [] (Ok ()) w
| iterated_next (id : string) (br : Branch) (bs : Branches) (w w1 w' : World)
    (handed : list (string * State)) (res : result unit) :
    done (b w) = false →
    branch_process br mw w = (Ok (), w1) →
    iterated mw bs w1 handed res w' →
    iterated mw ((id, br) :: bs) w ((id, b w) :: handed) res w'
| iterated_stop (id : string) (br : Branch) (bs : Branches) (w w1 : World)
    (res : result unit) :
    done (b w) = false →
    branch_process br mw w = (res, w1) →
    res ≠ Ok () →
    iterated mw ((id, br) :: bs) w [(id, b w)] res w1.

(** The steps noted for the branches handed over. *)
Definition evaluated (stage : string) (handed : list (string * State)) : list Event :=
  (λ '(id, s), Evaluated stage id s) <$> handed.

(** *** Thoughts *)

Definition hear_action (success : bool) : SE Ctx unit :=
  if success then mret ()
  else in_world (modify (λ w, set_b (finish (b w)) w)).

Definition listen_action (success : bool) : SE Ctx unit :=
  if success
  then modify (λ c, {| world := world c; tpath := forced_understand (tpath c) |})
  else mret ().

Definition too_short (w : World) (text : string) : bool :=
  match settings w !! "nlu-min-length" with
  | Some n => negb (n =? 0) && (Z.of_nat (String.length (trim text)) <? n)
  | None => false
  end.

(** Modelled from the spec: [nlu.create ().addResults (raw)] holds the
    provider's results for the branches to match on. *)
Definition nlu_addResults (raw : NluRaw) : NLU := {| nlu_results := raw |}.

Definition understand_validate : SE World bool := λ w,
  match nlu_adapter (adapters w), message (b w) with
  | None, _ => (Ok false, w)
  | Some _, None => (Ok false, w)
  | Some _, Some m =>
    if negb (is_Text m) then (Ok false, w)
    else if String.eqb (trim (toString m)) "" then (Ok false, w)
    else if too_short w (toString m) then (Ok false, w)
    else
      match nlu_process m w with
      | Throw e => (Throw e, w)
      | Reject v => (Reject v, w)
      | Pending => (Pending, w)
      | Ok None | Ok (Some []) => (Ok false, w)
      | Ok (Some raw) =>
        (Ok true, set_b (set_message (Some (set_nlu m (nlu_addResults raw))) (b w)) w)
      end
  end.

Definition act_validate : SE World bool := λ w,
  if matched (b w) then (Ok false, w)
  else
    match message (b w) with
    | Some m => (Ok true, set_b (set_message (Some (CatchAll m)) (b w)) w)
    | None => (Ok true, w)
    end.

Definition set_branchId (i : nat) (bid : string) (s : State) : State :=
  set_envelopes
    ((λ es, alter (λ e, {| env_id := env_id e; method := method e; room := room e;
                          strings := strings e; branchId := Some bid;
                          responded := responded e |}) i es) <$> envelopes s) s.

Definition set_responded (i : nat) (t : Z) (s : State) : State :=
  set_envelopes
    ((λ es, alter (λ e, {| env_id := env_id e; method := method e; room := room e;
                          strings := strings e; branchId := branchId e;
                          responded := Some t |}) i es) <$> envelopes s) s.

Definition respond_validate : SE World bool := λ w,
  match message_adapter (adapters w) with
  | None => (Throw "[thought] message adapter not found", w)
  | Some _ =>
    match pendingEnvelope (b w) with
    | None => (Ok false, w)
    | Some (i, _) =>
      match branch (b w) with
      | Some br => (Ok true, set_b (set_branchId i (branch_id br) (b w)) w)
      | None => (Ok true, w)
      end
    end
  end.

(** Modelled from the spec: [respondEnvelope ()] is the pending envelope
    of the queue, created and queued when there is none. *)
Definition respondEnvelope (w : World) : (nat * Envelope) * World :=
  match pendingEnvelope (b w) with
  | Some ie => (ie, w)
  | None =>
    let es := default [] (envelopes (b w)) in
    let e := envelope_create w in
    ((List.length es, e), set_b (set_envelopes (Some (es ++ [e])%list) (b w)) w)
  end.

Definition respond_action (success : bool) : SE World unit := λ w,
  if success then
    let '((i, envelope), w1) := respondEnvelope w in
    match message_adapter (adapters w1) with
    | None => (Throw "TypeError: cannot read property dispatch", w1)
    | Some _ =>
      (message_dispatch envelope;;
       modify (λ w2, set_b (set_responded i (now w2) (b w2)) w2)) w1
    end
  else (Ok (), w).

Definition remember_validate : SE World bool := λ w,
  let updated : result World :=
    if matched (b w) then
      match message (b w) with
      | Some m => Ok (user_byId (user_id (message_user m)) (message_user m) w)
      | None => Throw "TypeError: cannot read property user"
      end
    else Ok w in
  match updated with
  | Throw e => (Throw e, w)
  | Reject v => (Reject v, w)
  | Pending => (Pending, w)
  | Ok w1 =>
    match storage_adapter (adapters w1) with
    | None => (Ok false, w1)
    | Some _ =>
      if negb (matched (b w1)) && negb (bool_decide (is_Some (dispatchedEnvelope (b w1))))
      then (Ok false, w1)
      else (Ok true, w1)
    end
  end.

Definition remember_action (success : bool) : SE World unit :=
  if success then (w ← get; store_keep "states" (b w)) else mret ().

(** The seven stages of [Thoughts], each with the middleware found
    under its name. *)
Definition hear_stage (mw : Middleware) : Thought :=
  {| name := "hear"; validate := mret true; validate_sync := false;
     action := hear_action; middleware := mw; branches := None |}.

Definition listen_stage (mw : Middleware) : Thought :=
  {| name := "listen"; validate := mret true; validate_sync := false;
     action := listen_action; middleware := mw; branches := Some listen |}.

Definition understand_stage (mw : Middleware) : Thought :=
  {| name := "understand"; validate := in_world understand_validate; validate_sync := false;
     action := λ _, mret (); middleware := mw; branches := Some understand |}.

Definition serve_stage (mw : Middleware) : Thought :=
  {| name := "serve"; validate := mret true; validate_sync := false;
     action := λ _, mret (); middleware := mw; branches := Some serve |}.

Definition act_stage (mw : Middleware) : Thought :=
  {| name := "act"; validate := in_world act_validate; validate_sync := false;
     action := λ _, mret (); middleware := mw; branches := Some act |}.

Definition respond_stage (mw : Middleware) : Thought :=
  {| name := "respond"; validate := in_world respond_validate; validate_sync := false;
     action := λ s, in_world (respond_action s);
     middleware := mw; branches := None |}.

Definition remember_stage (mw : Middleware) : Thought :=
  {| name := "remember"; validate := in_world remember_validate; validate_sync := false;
     action := λ s, in_world (remember_action s);
     middleware := mw; branches := None |}.

(** The gate of [understand.validate], as the specification lists it:
    an NLU adapter, a Text message, a trimmed text that is not empty and
    not below a set [nlu-min-length], and a result that is not empty. *)
Definition understand_gate (w : World) (m : Message) (raw : NluRaw) : Prop :=
  is_Some (nlu_adapter (adapters w))
  ∧ message (b w) = Some m
  ∧ is_Text m = true
  ∧ trim (toString m) ≠ ""
  ∧ (∀ n, settings w !! "nlu-min-length" = Some n →
          n ≤ Z.of_nat (String.length (trim (toString m))))
  ∧ nlu_process m w = Ok (Some raw)
  ∧ raw ≠ [].

(** The gate of [remember.validate], as the specification words it: a
    storage adapter, and a matched state or a dispatched envelope in the
    outbound queue. *)
Definition remember_gate (w : World) : Prop :=
  is_Some (storage_adapter (adapters w))
  ∧ (matched (b w) = true
     ∨ ∃ e, e ∈ default [] (envelopes (b w)) ∧ is_Some (responded e)).

Record Thoughts := {
  sequences : list (string * list string);
  processes : list (string * Thought)
}.

Definition default_sequences : list (string * list string) :=
  [("serve", ["hear"; "serve"; "act"; "remember"]);
   ("receive", ["hear"; "listen"; "understand"; "act"; "remember"]);
   ("respond", ["respond"]);
   ("dispatch", ["respond"; "remember"])].

Definition stage (n : string) (bs : option (Path → Branches))
    (v : option (SE Ctx bool)) (a : option (bool → SE Ctx unit)) : result Thought :=
  new_Thought {| o_name := n; o_validate := v; o_validate_sync := false;
                 o_action := a; o_branches := bs; o_middleware := None |}.

(** [new Thoughts (state, initPath)]: the seven processes, with their
    validation and post processing actions. *)
Definition new_Thoughts : result Thoughts :=
  hear ← stage "hear" None None (Some hear_action);
  listen_ ← stage "listen" (Some listen) None (Some listen_action);
  understand_ ← stage "understand" (Some understand)
                  (Some (in_world understand_validate)) None;
  serve_ ← stage "serve" (Some serve) None None;
  act_ ← stage "act" (Some act) (Some (in_world act_validate)) None;
  respond ← stage "respond" None (Some (in_world respond_validate))
              (Some (λ s, in_world (respond_action s)));
  remember ← stage "remember" None (Some (in_world remember_validate))
               (Some (λ s, in_world (remember_action s)));
  Ok {| sequences := default_sequences;
        processes := [("hear", hear); ("listen", listen_);
                      ("understand", understand_); ("serve", serve_);
                      ("act", act_); ("respond", respond);
                      ("remember", remember)] |}.

Fixpoint lookup_name {A} (n : string) (l : list (string * A)) : option A :=
  match l with
  | [] => None
  | (k, v) :: l' => if String.eqb n k then Some v else lookup_name n l'
  end.

Fixpoint run_sequence (ps : list (string * Thought)) (names : list string)
  : SE Run unit :=
  match names with
  | [] => mret ()
  | n :: names' =>
    match lookup_name n ps with
    | Some t => process t;; run_sequence ps names'
    | None => throw "TypeError: cannot read property process"
    end
  end.

(** [if (!this.b.sequence) this.b.sequence = sequence] *)
Definition begin_sequence (sequence_ : string) (w : World) : World :=
  match sequence (b w) with
  | Some q =>
    if String.eqb q "" then set_b (set_sequence (Some sequence_) (b w)) w else w
  | None => set_b (set_sequence (Some sequence_) (b w)) w
  end.


(** [start (sequence)] *)
Definition start (t : Thoughts) (sequence_ : string) : SE Run State :=
  match lookup_name sequence_ (sequences t) with
  | None => throw "[thought] invalid sequence"
  | Some names =>
    in_ctx (in_world (modify (begin_sequence sequence_)));;
    run_sequence (processes t) names;;
    r ← get;
    mret (state_of r)
  end.

(** Modelled from the spec: [dialogue.engaged (state)] finds the dialogue
    of the state's audience in the registry. *)
Definition engaged (s : State) (w : World) : option nat :=
  k ← audience s; engagements w !! k.

(** What a run leaves behind: how it ended, the world, and the steps
    observed. *)
Definition Outcome : Type := result State * World * list Event.

(** [receive (message, path?)] *)
Definition receive (message_ : Message) (path_ : option Path) (w : World)
  : Outcome :=
  let startingState := state_create (Some message_) None in
  let dlg := engaged startingState w in
  let '(path_, w) :=
    match dlg, path_ with
    | Some d, None => progressPath d w
    | _, _ => (path_, w)
    end in
  match new_Thoughts with
  | Throw e => (Throw e, w, [])
  | Reject v => (Reject v, w, [])
  | Pending => (Pending, w, [])
  | Ok thought =>
    let r0 := {| ctx := {| world := set_b startingState w;
                           tpath := path_create path_ w |};
                 trace := [] |} in
    match start thought "receive" r0 with
    | (Throw e, r) => (Throw e, world (ctx r), trace r)
    | (Reject v, r) => (Reject v, world (ctx r), trace r)
    | (Pending, r) => (Pending, world (ctx r), trace r)
    | (Ok finalState, r) =>
      let w := world (ctx r) in
      let w :=
        match dlg with
        | Some d =>
          if negb (matched finalState) then revertPath d w
          else if dlg_hasBranches d w then close d w
          else w
        | None => w
        end in
      (Ok finalState, w, trace r)
    end
  end.

(** [dispatch (envelope)] *)
Definition dispatch (envelope : Envelope) (w : World) : Outcome :=
  match new_Thoughts with
  | Throw e => (Throw e, w, [])
  | Reject v => (Reject v, w, [])
  | Pending => (Pending, w, [])
  | Ok thought =>
    let r0 := {| ctx := {| world := set_b (state_create None (Some [envelope])) w;
                           tpath := path_create None w |};
                 trace := [] |} in
    let '(res, r) := start thought "dispatch" r0 in
    (res, world (ctx r), trace r)
  end.

(** [respond (b)]: a response from an existing state. *)
Definition respond (state : State) (w : World) : Outcome :=
  match new_Thoughts with
  | Throw e => (Throw e, w, [])
  | Reject v => (Reject v, w, [])
  | Pending => (Pending, w, [])
  | Ok thought =>
    let r0 := {| ctx := {| world := set_b state w; tpath := path_create None w |};
                 trace := [] |} in
    let '(res, r) := start thought "respond" r0 in
    (res, world (ctx r), trace r)
  end.


(** The envelope at an index of the outbound queue. *)
Definition queued (s : State) (i : nat) : option Envelope :=
  default [] (envelopes s) !! i.

Definition with_branchId (bid : string) (e : Envelope) : Envelope :=
  {| env_id := env_id e; method := method e; room := room e; strings := strings e;
     branchId := Some bid; responded := responded e |}.

Definition with_responded (time : Z) (e : Envelope) : Envelope :=
  {| env_id := env_id e; method := method e; room := room e; strings := strings e;
     branchId := branchId e; responded := Some time |}.

End WithHooks.

End Thought.

(** ** Settings *)

Module Settings.

(** The values options and arguments take. *)
Inductive Value : Type :=
| VString (s : string)
| VBoolean (b : bool)
| VNumber (n : Z)
| VNull.

(** [yargs.Options], without the help text. *)
Record Options := {
  opt_type : string;
  opt_alias : option string;
  opt_default : option Value;
  opt_global : option bool
}.

Record Settings := {
  options : gmap string Options;
  config : gmap string Value
}.

Definition option_ (type_ : string) (alias_ : option string)
    (default_ : option Value) : Options :=
  {| opt_type := type_; opt_alias := alias_; opt_default := default_;
     opt_global := None |}.

(** The initial options of the class. *)
Definition initial_options : gmap string Options :=
  list_to_map
    [("name", option_ "string" (Some "n") (Some (VString "bot")));
     ("alias", option_ "string" None None);
     ("log-level", option_ "string" None (Some (VString "info")));
     ("auto-save", option_ "boolean" None (Some (VBoolean true)));
     ("message-adapter", option_ "string" (Some "m") (Some (VString "./adapters/shell")));
     ("nlu-adapter", option_ "string" (Some "l") (Some VNull));
     ("storage-adapter", option_ "string" (Some "s") (Some VNull));
     ("webhook-adapter", option_ "string" (Some "w") (Some VNull));
     ("analytics-adapter", option_ "string" (Some "a") (Some VNull))].

Definition in_range (lo hi : nat) (c : ascii) : bool :=
  let n := nat_of_ascii c in ((lo <=? n)%nat && (n <=? hi)%nat).

(** [/[A-Z]/] *)
Definition is_upper (c : ascii) : bool := in_range 65 90 c.

(** The complement of [/[^a-z0-9_-]/i]. *)
Definition is_name_char (c : ascii) : bool :=
  in_range 97 122 c || in_range 65 90 c || in_range 48 57 c
  || Ascii.eqb c "_" || Ascii.eqb c "-".

(** [key.replace (/([A-Z])/g, (g) => `-${g[0].toLowerCase ()}`)] *)
Fixpoint hyphenKey (key : string) : string :=
  match key with
  | EmptyString => EmptyString
  | String c key' =>
    if is_upper c then String "-" (String (Mongo.lower_ascii c) (hyphenKey key'))
    else String c (hyphenKey key')
  end.

(** [loadConfig ()], given the arguments yargs parses for the options:
    the declared options are marked as not global, and the arguments
    whose hyphenated key is not a declared option are deleted. *)
Definition loadConfig (argv : gmap string Value) (s : Settings)
  : gmap string Value * Settings :=
  let opts := (λ o, {| opt_type := opt_type o; opt_alias := opt_alias o;
                       opt_default := opt_default o;
                       opt_global := Some false |}) <$> options s in
  (filter (λ kv, is_Some (opts !! hyphenKey kv.1)) argv,
   {| options := opts; config := config s |}).

(** [reloadConfig ()] *)
Definition reloadConfig (argv : gmap string Value) (s : Settings) : Settings :=
  let '(loaded, s') := loadConfig argv s in
  {| options := options s'; config := loaded |}.

(** [new Settings ()] *)
Definition new_Settings (argv : gmap string Value) : Settings :=
  reloadConfig argv {| options := initial_options; config := ∅ |}.

(** [name.replace (/[^a-z0-9_-]/ig, '')] *)
Fixpoint safeName (name : string) : string :=
  match name with
  | EmptyString => EmptyString
  | String c name' =>
    if is_name_char c then String c (safeName name') else safeName name'
  end.

Definition get (key : string) (s : Settings) : option Value := config s !! key.

Definition set (key : string) (value : Value) (s : Settings) : Settings :=
  {| options := options s; config := <[key := value]> (config s) |}.

Definition unset (key : string) (s : Settings) : Settings :=
  {| options := options s; config := delete key (config s) |}.

Definition get_name (s : Settings) : option Value := get "name" s.

Definition set_name (name : string) (s : Settings) : Settings :=
  set "name" (VString (safeName name)) s.

Definition get_alias (s : Settings) : option Value := get "alias" s.

Definition set_alias (name : string) (s : Settings) : Settings :=
  set "alias" (VString (safeName name)) s.

(** [extend (options)]: [Object.assign ({}, this.options, options)], then
    a reload. *)
Definition extend (argv : gmap string Value) (more : gmap string Options)
    (s : Settings) : Settings :=
  reloadConfig argv {| options := more ∪ options s; config := config s |}.

(** The characters of a string. *)
Definition chars (s : string) : list ascii := list_ascii_of_string s.

End Settings.

(** ** A small bot, for concrete runs *)

Module Scenario.

Import Thought.

Definition ann : User :=
  {| user_id := "u1"; user_name := "ann"; user_room := "r1" |}.

Definition plain (id : string) : Branch := {| branch_id := id; force := false |}.

(** What [branch.process] does on a match: the state is matched and
    remembers the branch. *)
Definition set_matched (br : Branch) (s : State) : State :=
  {| message := message s; envelopes := envelopes s; sequence := sequence s;
     processed := processed s; matched := true; done := done s;
     exit := exit s; branch := Some br |}.

(** A callback that adds a follow-up branch to the path of dialogue 0. *)
Definition add_followup (br : Branch) (w : World) : World :=
  match dialogues w !! 0%nat with
  | Some d =>
    set_dialogues
      (<[0%nat := {| path := {| listen := (listen (path d) ++ [(branch_id br, br)])%list;
                                understand := understand (path d);
                                serve := serve (path d); act := act (path d) |};
                     previousPath := previousPath d;
                     audienceKey := audienceKey d |}]> (dialogues w)) w
  | None => w
  end.

(** Branches by id: [thanks] matches and its callback adds nothing;
    [order] matches and its callback adds the follow-up branch [size];
    any other branch does not match. *)
Definition demo_branch (br : Branch) (_ : Middleware) : SE World unit := λ w,
  if String.eqb (branch_id br) "thanks"
  then (Ok (), set_b (set_matched br (b w)) w)
  else if String.eqb (branch_id br) "order"
  then (Ok (), add_followup (plain "size") (set_b (set_matched br (b w)) w))
  else (Ok (), w).

Definition blank_envelope : Envelope :=
  {| env_id := "e0"; method := "send"; room := ""; strings := [];
     branchId := None; responded := None |}.

(** Every stage has a middleware without pieces, except [hear], which
    gets the pieces given. *)
Definition demo_hooks (hear_pieces : Middleware) : Hooks :=
  {| middleware_get := λ n, if String.eqb n "hear" then Some hear_pieces else Some [];
     branch_process := demo_branch;
     nlu_process := λ _ _, Ok None;
     message_dispatch := λ _, mret ();
     store_keep := λ _ _, mret ();
     audience := λ s, (λ m, user_id (message_user m)) <$> message s;
     envelope_create := λ _, blank_envelope |}.

(** The same bot with an NLU adapter that finds one intent, the text. *)
Definition nlu_hooks : Hooks :=
  {| middleware_get := λ _, Some [];
     branch_process := demo_branch;
     nlu_process := λ m _, Ok (Some [("intents", [toString m])]);
     message_dispatch := λ _, mret ();
     store_keep := λ _ _, mret ();
     audience := λ s, (λ m, user_id (message_user m)) <$> message s;
     envelope_create := λ _, blank_envelope |}.

Definition nlu_world (text : string) (min_length : Z) : World :=
  {| b := state_create (Some (Text ann text "m1" None)) None;
     adapters := {| nlu_adapter := Some "nlu"; storage_adapter := None;
                    message_adapter := Some "shell" |};
     settings := {[ "nlu-min-length" := min_length ]}; users := ∅;
     dialogues := ∅; engagements := ∅; global := empty_path; now := 1000 |}.

Definition listen_path (ids : list string) : Path :=
  {| listen := (λ id, (id, plain id)) <$> ids; understand := []; serve := []; act := [] |}.

(** A world in which [ann] is engaged in dialogue 0, whose path listens
    with the branches given. *)
Definition engaged_world (ids : list string) : World :=
  {| b := state_create None None;
     adapters := {| nlu_adapter := None; storage_adapter := None;
                    message_adapter := Some "shell" |};
     settings := ∅; users := ∅;
     dialogues := {[ 0%nat := {| path := listen_path ids; previousPath := None;
                                 audienceKey := "u1" |} ]};
     engagements := {[ "u1" := 0%nat ]};
     global := empty_path; now := 1000 |}.

Definition said (text : string) : Message := Text ann text "m1" None.

(** A piece of middleware that completes early. *)
Definition interrupt : Piece := λ w, (Done, w).

(** A state that a callback has exited. *)
Definition exited (s : State) : State :=
  {| message := message s; envelopes := envelopes s; sequence := sequence s;
     processed := processed s; matched := matched s; done := done s;
     exit := true; branch := branch s |}.

(** A world without adapters. *)
Definition bare_world : World :=
  {| b := state_create None None;
     adapters := {| nlu_adapter := None; storage_adapter := None;
                    message_adapter := None |};
     settings := ∅; users := ∅; dialogues := ∅; engagements := ∅;
     global := empty_path; now := 1000 |}.

(** An envelope that has been dispatched. *)
Definition sent_envelope : Envelope :=
  {| env_id := "e1"; method := "send"; room := "r1"; strings := ["hi"];
     branchId := None; responded := Some 900 |}.

(** The branches of [demo_branch], and two more: [broken], whose callback
    rejects with a value that is not an error, and [faulty], whose callback
    throws an error. *)
Definition fragile_branch (br : Branch) (mw : Middleware) : SE World unit := λ w,
  if String.eqb (branch_id br) "broken" then (Reject (Some "no"), w)
  else if String.eqb (branch_id br) "faulty" then (Throw "boom", w)
  else demo_branch br mw w.

Definition fragile_hooks : Hooks :=
  {| middleware_get := λ _, Some [];
     branch_process := fragile_branch;
     nlu_process := λ _ _, Ok None;
     message_dispatch := λ _, mret ();
     store_keep := λ _ _, mret ();
     audience := λ s, (λ m, user_id (message_user m)) <$> message s;
     envelope_create := λ _, blank_envelope |}.


(** A world with a storage adapter, on a state that is matched and has no
    message. *)
Definition matched_without_message : World :=
  {| b := set_matched (plain "thanks") (state_create None None);
     adapters := {| nlu_adapter := None; storage_adapter := Some "mongo";
                    message_adapter := Some "shell" |};
     settings := ∅; users := ∅; dialogues := ∅; engagements := ∅;
     global := empty_path; now := 1000 |}.

(** A run that starts on a message and a path, with nothing noted yet. *)
Definition fresh_run (text : string) (p : Path) : Run :=
  {| ctx := {| world := set_b (state_create (Some (said text)) None) (engaged_world []);
               tpath := p |};
     trace := [] |}.

(** A world whose state queues a dispatched envelope and a pending one. *)
Definition queue_world : World :=
  set_b (state_create None (Some [sent_envelope; blank_envelope])) (engaged_world []).

End Scenario.

(** * Properties *)

(** ** Rocket.Chat: what a reply sends *)

Module RocketchatFacts.

Import Rocketchat.

Lemma sent_texts_sendToRoomId (rid : string) (ts : list string) :
  sent_texts ((λ text, sendToRoomId text rid) <$> ts) = ts.
Proof.
  unfold sent_texts.
  induction ts as [|t ts IH]; simpl; [done | by f_equal].
Qed.

(** Whatever the envelope holds, a reply hands the driver the index keys
    of the array of strings, one call per string; the prefixed strings
    only end up in [envelope.strings]. *)
Lemma reply_sends_the_keys (envelope : Envelope) (ss : list string) (u : User)
    (rid : string) :
  strings envelope = Some ss → user envelope = Some u →
  room_id envelope = Some rid → rid ≠ "" →
  ∃ envelope' calls,
    respond envelope "reply" = Ok (envelope', calls)
    ∧ strings envelope' = Some (reply_texts u rid ss)
    ∧ sent_texts calls = for_in_keys ss.
Proof.
  intros Hs Hu Hr Hne. unfold respond. simpl. rewrite Hs, Hu, Hr. simpl.
  destruct (String.eqb_spec rid "") as [->|_]; [done|].
  eexists _, _. split; [reflexivity|]. split; [reflexivity|].
  rewrite sent_texts_sendToRoomId. unfold for_in_keys. f_equal. f_equal.
  destruct (indexOf rid (id u) =? -1); [by rewrite length_fmap | done].
Qed.

(** C7, at a reply of one string to user [bob] in room [general] (whose id
    does not contain the user id): the contract asks for ["@bob hello"] to
    be sent, the adapter sends ["0"], the key that [for (let text in
    envelope.strings)] enumerates. *)
Theorem reply_sends_index_instead_of_text :
  let envelope := {| strings := Some ["hello"];
                     user := Some {| id := "u1"; username := "bob" |};
                     room_id := Some "general"; message_id := None |} in
  reply_texts {| id := "u1"; username := "bob" |} "general" ["hello"] = ["@bob hello"]
  ∧ ∃ envelope',
      respond envelope "reply" = Ok (envelope', [sendToRoomId "0" "general"])
      ∧ strings envelope' = Some ["@bob hello"].
Proof. simpl. split; [reflexivity|]. eexists. split; reflexivity. Qed.

End RocketchatFacts.

(** ** Mongo: find, and the round trip of the memory *)

Module MongoFacts.

Import Mongo.

(** *** [find] *)

(** The filter of [find] overwrites [match] at every key: the last key of
    the parameters decides alone. *)
Lemma get_prop_object (fs : Obj) (key : string) :
  get_prop (VObj fs) key
  = Ok (match obj_lookup key fs with
        | Some v => Data v
        | None => if inherited (VObj fs) key then Builtin key else Data VUndef
        end).
Proof.
  unfold get_prop. simpl. destruct (obj_lookup key fs); [done|].
  by destruct (inherited (VObj fs) key).
Qed.

Lemma match_item_object (params : Obj) (fs : Obj) :
  ∃ m, match_item params (VObj fs) = Ok m.
Proof.
  unfold match_item. generalize false.
  induction params as [|[k v] params IH]; intros m0; [by eexists|].
  cbn [foldl]. rewrite get_prop_object. apply IH.
Qed.

Lemma match_item_last_key (params : Obj) (key : string) (pv : JsVal) (fs : Obj) :
  match_item (params ++ [(key, pv)])%list (VObj fs)
  = Ok (match obj_lookup key fs with
        | Some v => strict_eq v pv
        | None => if inherited (VObj fs) key then false else strict_eq VUndef pv
        end).
Proof.
  destruct (match_item_object params fs) as [m Hm].
  unfold match_item in *. rewrite foldl_app, Hm. cbn [foldl].
  rewrite get_prop_object. simpl. destruct (obj_lookup key fs); [done|].
  by destruct (inherited (VObj fs) key).
Qed.

(** C8, on a store whose [states] list holds [{a: 1, b: 2}] and
    [{a: 9, b: 2}], asked for [{a: 1, b: 2}]: only the first element is
    equal on every key, yet [find] returns both, the second one differing
    on [a]; [findOne] returns the first. *)
Theorem find_returns_element_differing_on_a_key :
  let item1 := VObj [("a", VNum 1); ("b", VNum 2)] in
  let item2 := VObj [("a", VNum 9); ("b", VNum 2)] in
  let db := keep "states" item2 (keep "states" item1 []) in
  let params := [("a", VNum 1); ("b", VNum 2)] in
  filter (λ item, shallow_equal params item = true) [item1; item2] = [item1]
  ∧ find "states" params db = Ok (Some [item1; item2])
  ∧ findOne "states" params db = Some item1.
Proof. simpl. split; [|split]; reflexivity. Qed.

(** *** [saveMemory] then [loadMemory] *)







Section Load.

Variable User : JsVal → JsVal.



End Load.

(** *** Saving over the memory documents of a store *)















(** The schema lower-cases [sub]: a sub-entry saved under [Private] comes
    back under [private], also on an empty store. *)
Lemma loadMemory_saveMemory_upper_case :
  loadMemory (λ r, r) (saveMemory [("Private", VNum 1)] [])
  = Some [("private", VNum 1)].
Proof. reflexivity. Qed.

(** Two memory documents under one sub: saving updates the first, and
    loading gives the second, which is stale. *)
Lemma loadMemory_saveMemory_duplicate_sub :
  let db := [{| type := "memory"; sub := "private"; data := VNum 1 |};
             {| type := "memory"; sub := "private"; data := VNum 2 |}] in
  loadMemory (λ r, r) (saveMemory [("private", VNum 5)] db)
  = Some [("private", VNum 2)].
Proof. reflexivity. Qed.

End MongoFacts.

(** ** The thought process *)

Module ThoughtFacts.

Import Thought.

Section Validators.

Context {hooks : Hooks}.

(** A [Thoughts] instance exists exactly when each of its seven stages
    finds its middleware, and then it is made of the stages above. *)
Lemma new_Thoughts_Ok (t : Thoughts) :
  new_Thoughts = Ok t →
  ∃ mh ml mu ms ma mr mm,
    middleware_get "hear" = Some mh
    ∧ middleware_get "act" = Some ma
    ∧ t = {| sequences := default_sequences;
             processes := [("hear", hear_stage mh); ("listen", listen_stage ml);
                           ("understand", understand_stage mu);
                           ("serve", serve_stage ms); ("act", act_stage ma);
                           ("respond", respond_stage mr);
                           ("remember", remember_stage mm)] |}.
Proof.
  unfold new_Thoughts, stage, new_Thought. simpl.
  destruct (middleware_get "hear") as [mh|]; [|done].
  destruct (middleware_get "listen") as [ml|]; [|done].
  destruct (middleware_get "understand") as [mu|]; [|done].
  destruct (middleware_get "serve") as [ms|]; [|done].
  destruct (middleware_get "act") as [ma|]; [|done].
  destruct (middleware_get "respond") as [mr|]; [|done].
  destruct (middleware_get "remember") as [mm|]; [|done].
  simpl. intros [= <-]. by exists mh, ml, mu, ms, ma, mr, mm.
Qed.

(** *** understand *)

Lemma too_short_false (w : World) (text : string) :
  too_short w text = false
  ↔ ∀ n, settings w !! "nlu-min-length" = Some n →
         n ≤ Z.of_nat (String.length (trim text)).
Proof.
  unfold too_short. destruct (settings w !! "nlu-min-length") as [n|].
  - destruct (Z.eqb_spec n 0) as [->|Hn]; simpl.
    + split; [intros _ ? [= <-]; lia | done].
    + destruct (Z.ltb_spec (Z.of_nat (String.length (trim text))) n).
      * split; [done|]. intros Hle. specialize (Hle n eq_refl). lia.
      * split; [|done]. intros _ ? [= <-]. lia.
  - split; [|done]. intros _ ? [=].
Qed.

Lemma understand_validate_true_iff (w : World) :
  (understand_validate w).1 = Ok true ↔ ∃ m raw, understand_gate w m raw.
Proof.
  unfold understand_validate, understand_gate. split.
  - destruct (nlu_adapter (adapters w)) as [a|]; [|done].
    destruct (message (b w)) as [m|]; [|done].
    destruct (is_Text m) eqn:Ht; simpl; [|done].
    destruct (String.eqb_spec (trim (toString m)) "") as [|Hne]; [done|].
    destruct (too_short w (toString m)) eqn:Hts; [done|].
    destruct (nlu_process m w) as [[[|e raw]|]| | |] eqn:Hp; try done.
    intros _. exists m, (e :: raw). repeat split; try done.
    by apply too_short_false.
  - intros (m & raw & [a Ha] & Hm & Ht & Hne & Hlen & Hp & Hraw).
    rewrite Ha, Hm, Ht. simpl.
    destruct (String.eqb_spec (trim (toString m)) "") as [|_]; [done|].
    apply too_short_false in Hlen. rewrite Hlen, Hp.
    by destruct raw.
Qed.

Lemma understand_validate_attaches (w : World) (m : Message) (raw : NluRaw) :
  understand_gate w m raw →
  understand_validate w
  = (Ok true, set_b (set_message (Some (set_nlu m (nlu_addResults raw))) (b w)) w).
Proof.
  intros ([a Ha] & Hm & Ht & Hne & Hlen & Hp & Hraw).
  unfold understand_validate. rewrite Ha, Hm, Ht. simpl.
  destruct (String.eqb_spec (trim (toString m)) "") as [|_]; [done|].
  apply too_short_false in Hlen. rewrite Hlen, Hp.
  by destruct raw.
Qed.

(** C4.  [understand.validate] returns true if and only if an NLU adapter
    exists, the message is a Text message, its trimmed text is not empty
    and not shorter than a set [nlu-min-length], and the adapter's
    [process] returned a result that is not empty.  The message of the
    state is then a Text message with the same user, text and id, whose
    [nlu] holds the results the adapter returned; nothing else of the state
    or of the world has changed. *)
Theorem understand_validate_spec (w : World) :
  ((understand_validate w).1 = Ok true ↔ ∃ m raw, understand_gate w m raw)
  ∧ ∀ m raw, understand_gate w m raw →
      (∃ m', message (b (understand_validate w).2) = Some m'
             ∧ message_nlu m' = Some (nlu_addResults raw)
             ∧ nlu_results (nlu_addResults raw) = raw
             ∧ is_Text m' = true
             ∧ toString m' = toString m
             ∧ message_user m' = message_user m
             ∧ message_id m' = message_id m)
      ∧ same_but_message (b w) (b (understand_validate w).2)
      ∧ same_but_state w (understand_validate w).2
      ∧ message (b (understand_validate w).2)
        = Some (set_nlu m (nlu_addResults raw))
      ∧ (understand_validate w).2
        = set_b (set_message (Some (set_nlu m (nlu_addResults raw))) (b w)) w.
Proof.
  split; [apply understand_validate_true_iff|].
  intros m raw Hgate. rewrite (understand_validate_attaches w m raw Hgate).
  destruct Hgate as (_ & _ & Ht & _).
  destruct m as [u t i n| | | | |]; try done. simpl.
  split; [by eexists|]. by repeat split.
Qed.

(** *** act *)

Lemma act_stage_skips_when_matched (mw : Middleware) (r : Run) :
  matched (state_of r) = true → exit (state_of r) = false →
  process (act_stage mw) r
  = (Ok (), {| ctx := ctx r;
               trace := (trace r ++ [Acted "act" false (state_of r)])%list |}).
Proof.
  destruct r as [[w p] tr]. unfold state_of. simpl. intros Hm He.
  unfold process, attempt, on_reject, mbind, SE_bind, get, state_of. simpl.
  rewrite He.
  case_bool_decide; simpl; [done|].
  destruct (done (b w)); simpl; [done|].
  unfold in_ctx, in_world, act_validate. simpl. by rewrite Hm.
Qed.

(** C3.  [act.validate] returns false when the state is matched, leaving
    the state as it is, so that the act stage evaluates none of its
    branches and fails.  Otherwise it returns true, and the message of the
    state, if there was one, is the catch-all that wraps it; nothing else
    of the state or of the world has changed. *)
Theorem act_validate_gate (w : World) :
  (matched (b w) = true →
     act_validate w = (Ok false, w)
     ∧ ∀ mw p tr, exit (b w) = false →
         process (act_stage mw) {| ctx := {| world := w; tpath := p |}; trace := tr |}
         = (Ok (), {| ctx := {| world := w; tpath := p |};
                      trace := (tr ++ [Acted "act" false (b w)])%list |}))
  ∧ (matched (b w) = false →
     (∀ m, message (b w) = Some m →
        (∃ w', act_validate w = (Ok true, w')
               ∧ message (b w') = Some (CatchAll m)
               ∧ same_but_message (b w) (b w')
               ∧ same_but_state w w')
        ∧ act_validate w = (Ok true, set_b (set_message (Some (CatchAll m)) (b w)) w))
     ∧ (message (b w) = None → act_validate w = (Ok true, w))).
Proof.
  split.
  - intros Hm. split; [unfold act_validate; by rewrite Hm|].
    intros mw p tr He. by apply (act_stage_skips_when_matched mw).
  - intros Hm. unfold act_validate. rewrite Hm. split; [|by intros ->].
    intros m ->. split; [|done]. eexists. split; [reflexivity|]. by repeat split.
Qed.

(** *** remember *)

Lemma dispatchedEnvelope_is_Some (s : State) :
  is_Some (dispatchedEnvelope s)
  ↔ ∃ e, e ∈ default [] (envelopes s) ∧ is_Some (responded e).
Proof.
  unfold dispatchedEnvelope. rewrite fmap_is_Some. split.
  - intros [[i e] He]. apply list_find_Some in He as (Hi & He & _).
    exists e. split; [by eapply list_elem_of_lookup_2|].
    by destruct (responded e).
  - intros (e & Hin & [t Ht]).
    destruct (list_find (λ e, responded e ≠ None) (default [] (envelopes s)))
      as [ie|] eqn:Hf; [done|].
    apply list_find_None in Hf. rewrite Forall_forall in Hf.
    destruct (Hf e Hin). by rewrite Ht.
Qed.

(** C2, as the code has it.  In a state that has its message whenever it is
    matched, [remember.validate] returns true if and only if a storage
    adapter is configured and the state is matched or an envelope of the
    outbound queue was dispatched.  When the state is matched, the
    directory holds the message's user under its id afterwards, whether or
    not there is a storage adapter, and nothing else has changed. *)
Theorem remember_validate_spec (w : World) :
  (matched (b w) = true → is_Some (message (b w))) →
  ∃ (r : bool) (w' : World),
    remember_validate w = (Ok r, w')
    ∧ (r = true ↔ remember_gate w)
    ∧ (matched (b w) = false → w' = w)
    ∧ (∀ m, matched (b w) = true → message (b w) = Some m →
         users w' !! user_id (message_user m) = Some (message_user m)
         ∧ (∀ id, id ≠ user_id (message_user m) → users w' !! id = users w !! id)
         ∧ same_but_users w w'
         ∧ w' = user_byId (user_id (message_user m)) (message_user m) w).
Proof.
  intros Hmsg. unfold remember_validate, remember_gate.
  assert (∀ m, users (user_byId (user_id (message_user m)) (message_user m) w)
                 !! user_id (message_user m) = Some (message_user m)
               ∧ (∀ id, id ≠ user_id (message_user m) →
                    users (user_byId (user_id (message_user m)) (message_user m) w) !! id
                    = users w !! id)
               ∧ same_but_users w
                   (user_byId (user_id (message_user m)) (message_user m) w)) as Hdir.
  { intros m. simpl. split; [by rewrite lookup_insert_eq|].
    split; [|by repeat split]. intros id Hid. by rewrite lookup_insert_ne. }
  destruct (matched (b w)) eqn:Hm.
  - destruct (Hmsg eq_refl) as [m Hmes]. rewrite Hmes. simpl. rewrite Hm. simpl.
    destruct (Hdir m) as (Hd1 & Hd2 & Hd3).
    destruct (storage_adapter (adapters w)) as [a|]; eexists _, _;
      (split; [reflexivity|]); (split; [|split; [done|by intros ? _ [= <-]]]).
    + split; [intros _; split; [by eexists | by left] | done].
    + split; [done | by intros [[? [=]] _]].
  - simpl. rewrite Hm. simpl.
    destruct (storage_adapter (adapters w)) as [a|].
    + case_bool_decide as Hd; simpl; eexists _, _;
        (split; [reflexivity|]); (split; [|split; [done|done]]).
      * apply dispatchedEnvelope_is_Some in Hd.
        split; [intros _; split; [by eexists | by right] | done].
      * rewrite dispatchedEnvelope_is_Some in Hd.
        split; [done | by intros [_ [?|?]]].
    + eexists _, _. split; [reflexivity|]. split; [|done].
      split; [done | by intros [[? [=]] _]].
Qed.

End Validators.

(** *** [Thought.process] *)

Section Process.

Context {hooks : Hooks}.

Ltac run_simpl :=
  unfold mbind, mret, SE_bind, SE_ret, get, modify, throw, emit, in_ctx,
    in_world, state_of in *; simpl in *.


(** The loop of [process] is the iteration the specification describes,
    over the enumeration of the branches. *)
Lemma visit_iterated (stage : string) (mw : Middleware) (bs : Branches) :
  ∀ r : Run,
    ∃ handed res w',
      iterated mw bs (world (ctx r)) handed res w'
      ∧ visit stage mw bs r
        = (res, {| ctx := {| world := w'; tpath := tpath (ctx r) |};
                   trace := (trace r ++ evaluated stage handed)%list |}).
Proof.
  induction bs as [|[id br] bs IH]; intros [[w p] tr].
  - exists [], (Ok ()), w. split; [constructor|]. simpl. by rewrite app_nil_r.
  - simpl. run_simpl. destruct (done (b w)) eqn:Hd.
    + exists [], (Ok ()), w. split; [by constructor|]. by rewrite app_nil_r.
    + destruct (branch_process br mw w) as [res w1] eqn:Hbp.
      destruct res as [[]|e|v|].
      * destruct (IH {| ctx := {| world := w1; tpath := p |};
                        trace := (tr ++ [Evaluated stage id (b w)])%list |})
          as (handed & res & w' & Hit & Hrun).
        exists ((id, b w) :: handed), res, w'. split; [by econstructor|].
        simpl in *. rewrite ?Hbp, Hrun. by rewrite <- app_assoc.
      * exists [(id, b w)], (Throw e), w1.
        split; [by eapply iterated_stop | simpl; by rewrite Hbp].
      * exists [(id, b w)], (Reject v), w1.
        split; [by eapply iterated_stop | simpl; by rewrite Hbp].
      * exists [(id, b w)], Pending, w1.
        split; [by eapply iterated_stop | simpl; by rewrite Hbp].
Qed.

Lemma on_reject_called (t : Thought) (r : Run) : on_reject t r = called t false r.
Proof.
  unfold on_reject, called. run_simpl. by destruct (action t false (ctx r)).
Qed.

Lemma on_resolve_called (t : Thought) (r : Run) :
  on_resolve t r
  = called t true {| ctx := {| world := stamp (name t) (world (ctx r));
                               tpath := tpath (ctx r) |};
                     trace := trace r |}.
Proof.
  unfold on_resolve, called. run_simpl. by destruct (action t true _).
Qed.

Lemma called_trace (t : Thought) (s : bool) (r r' : Run) (res : result unit) :
  called t s r = (res, r') →
  trace r' = (trace r ++ [Acted (name t) s (state_of r)])%list
  ∧ (res, ctx r') = action t s (ctx r).
Proof.
  unfold called. destruct (action t s (ctx r)) as [a c]. by intros [= <- <-].
Qed.

Lemma stamp_flags (n : string) (w : World) :
  matched (b (stamp n w)) = matched (b w)
  ∧ done (b (stamp n w)) = done (b w)
  ∧ exit (b (stamp n w)) = exit (b w).
Proof.
  unfold stamp. destruct (processed (b w) !! n) as [t|]; [|done].
  by destruct (t =? 0).
Qed.

Lemma stamp_is_Some (n : string) (w : World) :
  is_Some (processed (b (stamp n w)) !! n).
Proof.
  unfold stamp. destruct (processed (b w) !! n) as [t|] eqn:Hp.
  - destruct (t =? 0); simpl; [by rewrite lookup_insert_eq | by rewrite Hp].
  - simpl. by rewrite lookup_insert_eq.
Qed.

Lemma for_in_nil {A} (o : list (string * A)) : for_in o = [] ↔ o = [].
Proof.
  split; [|by intros ->]. unfold for_in.
  destruct o as [|[k v] o]; [done|]. simpl.
  destruct (array_index k) as [n|] eqn:Hk.
  - intros [Hi _]%app_eq_nil. apply fmap_nil_inv in Hi.
    revert Hi. generalize (foldr (λ kv acc, match array_index kv.1 with
                                            | Some n => insert_index n kv acc
                                            | None => acc
                                            end) [] o).
    intros [|[m y] l]; simpl; [done|]. by destruct (n <? m).
  - intros [_ Hf]%app_eq_nil. by rewrite filter_cons_True in Hf.
Qed.

(** What a stage with branches does once it reaches its iteration. *)
Lemma process_iterates (t : Thought) (collection : Path → Branches)
    (r : Run) (c1 : Ctx) :
  branches t = Some collection →
  collection (tpath (ctx r)) ≠ [] →
  exit (state_of r) = false →
  done (state_of r) = false →
  validate t (ctx r) = (Ok true, c1) →
  ∃ (handed : list (string * State)) (res1 : result unit) (w2 : World),
    iterated (middleware t) (for_in (collection (tpath c1))) (world c1) handed res1 w2
    ∧ let r2 := {| ctx := {| world := w2; tpath := tpath c1 |};
                   trace := (trace r ++ evaluated (name t) handed)%list |} in
      let r3 := {| ctx := {| world := stamp (name t) w2; tpath := tpath c1 |};
                   trace := (trace r ++ evaluated (name t) handed)%list |} in
      process t r
      = match res1 with
        | Ok _ =>
          if matched (b w2)
          then match called t true r3 with
               | (Reject _, r4) => called t false r4
               | o => o
               end
          else called t false r2
        | Throw e => (Throw e, r2)
        | Reject (Some _) => called t false r2
        | Reject None | Pending => (Pending, r2)
        end.
Proof.
  intros Hb Hne He Hd Hv.
  destruct (visit_iterated (name t) (middleware t)
              (for_in (collection (tpath c1))) {| ctx := c1; trace := trace r |})
    as (handed & res1 & w2 & Hit & Hrun).
  exists handed, res1, w2. split; [done|]. cbv zeta.
  unfold process, attempt, run_branches. rewrite Hb. run_simpl. rewrite He.
  rewrite bool_decide_eq_false_2 by (by rewrite for_in_nil).
  rewrite Hd, Hv. simpl. unfold caught. run_simpl. rewrite Hrun.
  by destruct res1 as [[]|e|[v|]|].
Qed.

Lemma for_in_named {A} (o : list (string * A)) :
  (∀ kv, kv ∈ o → array_index kv.1 = None) → for_in o = o.
Proof.
  intros Ho. unfold for_in.
  assert (foldr (λ (kv : string * A) acc,
                   match array_index kv.1 with
                   | Some n => insert_index n kv acc
                   | None => acc
                   end) [] o = []) as ->.
  { induction o as [|kv o IH]; [done|]. simpl.
    rewrite (Ho kv) by left. apply IH. intros kv' Hkv'. apply Ho. by right. }
  simpl. induction o as [|kv o IH]; [done|].
  rewrite filter_cons_True by (apply Ho; left).
  f_equal. apply IH. intros kv' Hkv'. apply Ho. by right.
Qed.

(** C6, as the code has it.  A stage with a branch collection that is not
    empty, entered with [done] unset and passing its validation, hands its
    branches to [branch.process] in the order in which the collection
    enumerates them, which is the order of insertion when no id is an array
    index, and halts before the first branch that would be entered with
    [done] set.  When every branch handed over returns, the action is
    called with true, on a state that carries the timestamp of the stage,
    exactly when the state is matched after the iteration, and with false
    otherwise.  A branch that throws an error makes [process] throw it; a
    branch that rejects with another value makes the stage fail, matched or
    not, and leaves [process] pending when that value is [undefined] or
    [null]. *)
Theorem process_with_branches (t : Thought) (collection : Path → Branches)
    (r : Run) (c1 : Ctx) :
  branches t = Some collection →
  collection (tpath (ctx r)) ≠ [] →
  exit (state_of r) = false →
  done (state_of r) = false →
  validate t (ctx r) = (Ok true, c1) →
  ∃ (handed : list (string * State)) (res1 : result unit) (w2 : World),
    iterated (middleware t) (for_in (collection (tpath c1))) (world c1) handed res1 w2
    ∧ ((∀ kb, kb ∈ collection (tpath c1) → array_index kb.1 = None) →
         for_in (collection (tpath c1)) = collection (tpath c1))
    ∧ is_Some (processed (b (stamp (name t) w2)) !! name t)
    ∧ let r2 := {| ctx := {| world := w2; tpath := tpath c1 |};
                   trace := (trace r ++ evaluated (name t) handed)%list |} in
      let r3 := {| ctx := {| world := stamp (name t) w2; tpath := tpath c1 |};
                   trace := (trace r ++ evaluated (name t) handed)%list |} in
      process t r
      = match res1 with
        | Ok _ =>
          if matched (b w2)
          then match called t true r3 with
               | (Reject _, r4) => called t false r4
               | o => o
               end
          else called t false r2
        | Throw e => (Throw e, r2)
        | Reject (Some _) => called t false r2
        | Reject None | Pending => (Pending, r2)
        end.
Proof.
  intros Hb Hne He Hd Hv.
  destruct (process_iterates t collection r c1 Hb Hne He Hd Hv)
    as (handed & res1 & w2 & Hit & Hp).
  exists handed, res1, w2. split; [done|].
  split; [apply for_in_named|]. split; [apply stamp_is_Some | exact Hp].
Qed.



(** *** A run of the receive sequence after [hear] failed *)

Lemma process_exit (t : Thought) (r : Run) :
  exit (state_of r) = true → process t r = (Ok (), r).
Proof. intros He. unfold process. by rewrite He. Qed.







Lemma run_sequence_cons (ps : list (string * Thought)) (n : string)
    (names : list string) (r : Run) :
  run_sequence ps (n :: names) r
  = match lookup_name n ps with
    | Some t =>
      match process t r with
      | (Ok _, r1) => run_sequence ps names r1
      | (Throw e, r1) => (Throw e, r1)
      | (Reject v, r1) => (Reject v, r1)
      | (Pending, r1) => (Pending, r1)
      end
    | None => (Throw "TypeError: cannot read property process", r)
    end.
Proof.
  simpl. destruct (lookup_name n ps); [|done]. run_simpl.
  by destruct (process t r) as [[[]|e|v|] r1].
Qed.


Lemma begin_sequence_flags (q : string) (w : World) :
  exit (b (begin_sequence q w)) = exit (b w).
Proof.
  unfold begin_sequence. destruct (sequence (b w)) as [q'|]; [|done].
  by destruct (String.eqb q' "").
Qed.





End Process.

(** *** Concrete runs *)

Import Scenario.

(** With a minimum length of 5, the text [" order "] (trimmed to 5
    characters) is understood, and [" hi "] is not. *)
Example understand_validate_runs :
  understand_validate (hooks := nlu_hooks) (nlu_world " order " 5)
  = (Ok true,
     set_b (state_create
              (Some (Text ann " order " "m1" (Some (nlu_addResults [("intents", [" order "])]))))
              None)
           (nlu_world " order " 5))
  ∧ (understand_validate (hooks := nlu_hooks) (nlu_world " hi " 5)).1 = Ok false.
Proof. split; reflexivity. Qed.

Lemma remember_validate_spec_witness :
  let w := set_b (set_matched (plain "thanks")
                    (state_create (Some (said "thanks")) None))
                 (engaged_world ["thanks"]) in
  ∃ (r : bool) (w' : World),
    remember_validate w = (Ok r, w')
    ∧ (r = true ↔ remember_gate w)
    ∧ (matched (b w) = false → w' = w)
    ∧ (∀ m, matched (b w) = true → message (b w) = Some m →
         users w' !! user_id (message_user m) = Some (message_user m)
         ∧ (∀ id, id ≠ user_id (message_user m) → users w' !! id = users w !! id)
         ∧ same_but_users w w'
         ∧ w' = user_byId (user_id (message_user m)) (message_user m) w).
Proof.
  intros w. apply (remember_validate_spec w).
  simpl. intros _. by eexists.
Defined.

(** C2 as stated fails on a matched state that has no message: there is a
    storage adapter and the state is matched, yet [remember.validate] does
    not return, reading the user of a message that is not there. *)
Lemma remember_validate_without_message :
  remember_gate matched_without_message
  ∧ matched (b matched_without_message) = true
  ∧ remember_validate matched_without_message
    = (Throw "TypeError: cannot read property user", matched_without_message).
Proof.
  split; [|split; reflexivity]. split; [by eexists | by left].
Qed.

(** A listen stage over the branches [other], [thanks], [order]. *)
Lemma process_with_branches_witness :
  let t := listen_stage [] in
  let r := fresh_run "thanks" (listen_path ["other"; "thanks"; "order"]) in
  let c1 := ctx r in
  ∃ (handed : list (string * State)) (res1 : result unit) (w2 : World),
    iterated (hooks := demo_hooks []) (middleware t) (for_in (listen (tpath c1)))
      (world c1) handed res1 w2
    ∧ ((∀ kb, kb ∈ listen (tpath c1) → array_index kb.1 = None) →
         for_in (listen (tpath c1)) = listen (tpath c1))
    ∧ is_Some (processed (b (stamp (name t) w2)) !! name t)
    ∧ let r2 := {| ctx := {| world := w2; tpath := tpath c1 |};
                   trace := (trace r ++ evaluated (name t) handed)%list |} in
      let r3 := {| ctx := {| world := stamp (name t) w2; tpath := tpath c1 |};
                   trace := (trace r ++ evaluated (name t) handed)%list |} in
      process (hooks := demo_hooks []) t r
      = match res1 with
        | Ok _ =>
          if matched (b w2)
          then match called t true r3 with
               | (Reject _, r4) => called t false r4
               | o => o
               end
          else called t false r2
        | Throw e => (Throw e, r2)
        | Reject (Some _) => called t false r2
        | Reject None | Pending => (Pending, r2)
        end.
Proof.
  intros t r c1.
  apply (process_with_branches (hooks := demo_hooks []) t listen r c1);
    [reflexivity | by vm_compute | reflexivity | reflexivity | reflexivity].
Defined.

(** C6 as stated fails in three ways.  Branches inserted under the ids
    [b], [10] and [2] are evaluated in the order [2], [10], [b]: an object
    enumerates its array indices first.  After the branch [thanks] has
    matched, the branch [broken], which rejects with a value that is not an
    error, makes the stage fail on a state that is matched.  And in its
    place the branch [faulty], which throws an error, makes [process] throw
    it: the state is matched and no action is called. *)
Lemma process_with_branches_order_and_failures :
  let run (hooks : Hooks) ids :=
    process (hooks := hooks) (listen_stage []) (fresh_run "thanks" (listen_path ids)) in
  evaluated_ids (trace (run (demo_hooks []) ["b"; "10"; "2"]).2) = ["2"; "10"; "b"]
  ∧ (evaluated_ids (trace (run fragile_hooks ["thanks"; "broken"; "order"]).2)
     = ["thanks"; "broken"]
     ∧ actions (trace (run fragile_hooks ["thanks"; "broken"; "order"]).2)
       = [("listen", false, true)])
  ∧ (evaluated_ids (trace (run fragile_hooks ["thanks"; "faulty"; "order"]).2)
     = ["thanks"; "faulty"]
     ∧ (run fragile_hooks ["thanks"; "faulty"; "order"]).1 = Throw "boom"
     ∧ matched (state_of (run fragile_hooks ["thanks"; "faulty"; "order"]).2) = true
     ∧ actions (trace (run fragile_hooks ["thanks"; "faulty"; "order"]).2) = []).
Proof. cbv zeta. repeat split; reflexivity. Qed.




(** C1, on three receive runs of an engaged dialogue.  A run that matches
    and adds no branch should close the dialogue: it is left engaged, on
    an empty path.  A run that matches and adds a follow-up branch should
    leave the dialogue engaged: it is closed.  A run that matches nothing
    has the previous path restored. *)
Theorem receive_dialogue_closing :
  let run text ids := receive (hooks := demo_hooks []) (said text) None (engaged_world ids) in
  let matched_ (o : Outcome) := match o.1.1 with Ok s => Some (matched s) | _ => None end in
  let engaged_ (o : Outcome) := engagements o.1.2 !! "u1" in
  let path_ (o : Outcome) := path <$> dialogues o.1.2 !! 0%nat in
  (matched_ (run "thanks" ["thanks"]) = Some true
   ∧ path_ (run "thanks" ["thanks"]) = Some empty_path
   ∧ engaged_ (run "thanks" ["thanks"]) = Some 0%nat)
  ∧ (matched_ (run "one pizza" ["order"]) = Some true
     ∧ path_ (run "one pizza" ["order"]) = Some (listen_path ["size"])
     ∧ engaged_ (run "one pizza" ["order"]) = None)
  ∧ (matched_ (run "hm" ["other"]) = Some false
     ∧ path_ (run "hm" ["other"]) = Some (listen_path ["other"])
     ∧ engaged_ (run "hm" ["other"]) = Some 0%nat).
Proof. vm_compute. repeat split. Qed.

End ThoughtFacts.
(** * Further properties of the code *)

(** ** Rocket.Chat: the other methods, and incoming messages *)

Module RocketchatCalls.

Import Rocketchat.

(** *** Strings *)

Lemma append_cons (a : ascii) (s t : string) : String a s ++ t = String a (s ++ t).
Proof. reflexivity. Qed.

Lemma prefix_app (s t : string) : String.prefix s (s ++ t) = true.
Proof.
  induction s as [|a s IH]; [by destruct t|].
  rewrite append_cons. simpl. by destruct (ascii_dec a a).
Qed.

Lemma rev_app_app (s1 s2 t : string) :
  String.rev_app (s1 ++ s2) t = String.rev_app s2 (String.rev_app s1 t).
Proof.
  revert t. induction s1 as [|a s1 IH]; intros t; [done|].
  rewrite append_cons. simpl. apply IH.
Qed.

Lemma rev_app_rev_app (s t u : string) :
  String.rev_app (String.rev_app s t) u = String.rev_app t (s ++ u).
Proof.
  revert t u. induction s as [|a s IH]; intros t u; simpl; [done|].
  by rewrite IH, append_cons.
Qed.

Lemma append_nil_r (s : string) : s ++ "" = s.
Proof. induction s as [|a s IH]; [done | by rewrite append_cons, IH]. Qed.

Lemma rev_rev (s : string) : String.rev (String.rev s) = s.
Proof. unfold String.rev. rewrite rev_app_rev_app. simpl. apply append_nil_r. Qed.


Lemma rev_snoc (s p : string) : String.rev (s ++ p) = String.rev p ++ String.rev s.
Proof.
  unfold String.rev. rewrite rev_app_app.
  generalize (String.rev_app s ""). intros r.
  assert (∀ p t u, String.rev_app p (t ++ u) = String.rev_app p t ++ u) as Hgen.
  { clear. induction p as [|a p IH]; intros t u; simpl; [done|].
    by rewrite <- IH, append_cons. }
  by rewrite <- Hgen.
Qed.

Lemma endsWith_app (s p : string) : endsWith (s ++ p) p = true.
Proof. unfold endsWith. rewrite rev_snoc. apply prefix_app. Qed.

Lemma endsWith_inv (s p : string) :
  endsWith s p = true → ∃ s', s = s' ++ p.
Proof.
  unfold endsWith. intros Hp. apply String.prefix_correct in Hp.
  assert (∀ a b, String.prefix a b = true → ∃ c, b = a ++ c) as Hpre.
  { clear. induction a as [|x a IH]; intros b; [by exists b|].
    destruct b as [|y b]; simpl; [done|].
    destruct (ascii_dec x y) as [->|]; [|done].
    intros [c ->]%IH. exists c. by rewrite append_cons. }
  apply String.prefix_correct in Hp. apply Hpre in Hp as [c Hc].
  exists (String.rev c). rewrite <- (rev_rev s), Hc, rev_snoc. by rewrite rev_rev.
Qed.

Lemma prefix_inv (a b : string) : String.prefix a b = true → ∃ c, b = a ++ c.
Proof.
  revert b. induction a as [|x a IH]; intros b; [by exists b|].
  destruct b as [|y b]; simpl; [done|].
  destruct (ascii_dec x y) as [->|]; [|done].
  intros [c ->]%IH. exists c. by rewrite append_cons.
Qed.

Lemma substring_all (s : string) : String.substring 0 (String.length s) s = s.
Proof. induction s as [|a s IH]; simpl; [done | by rewrite IH]. Qed.

Lemma replace_unfold (pat rep s : string) :
  replace pat rep s
  = if String.prefix pat s
    then rep ++ String.substring (String.length pat)
                  (String.length s - String.length pat) s
    else match s with
         | EmptyString => EmptyString
         | String c s' => String c (replace pat rep s')
         end.
Proof. by destruct s. Qed.

Lemma prefix_one (c d : ascii) (s : string) :
  String.prefix (String c "") (String d s) = if ascii_dec c d then true else false.
Proof.
  change (String.prefix (String c "") (String d s))
    with (match ascii_dec c d with
          | left _ => String.prefix "" s
          | right _ => false
          end).
  destruct (ascii_dec c d); [by destruct s | done].
Qed.

Lemma replace_dash_cons (c : ascii) (s : string) :
  replace "-" "_" (String c s)
  = if ascii_dec "-"%char c then "_" ++ s else String c (replace "-" "_" s).
Proof.
  rewrite replace_unfold, prefix_one.
  destruct (ascii_dec "-"%char c); [|done].
  change (String.length (String c s) - String.length "-")%nat
    with (String.length s - 0)%nat.
  rewrite Nat.sub_0_r.
  change (String.substring (String.length "-") (String.length s) (String c s))
    with (String.substring 0 (String.length s) s).
  by rewrite substring_all.
Qed.

Lemma replace_dash_snoc (s : string) :
  replace "-" "_" (s ++ ":") = replace "-" "_" s ++ ":".
Proof.
  induction s as [|c s IH]; [done|].
  rewrite append_cons, !replace_dash_cons.
  destruct (ascii_dec "-"%char c); [done|]. by rewrite IH, append_cons.
Qed.

(** The name of a reaction goes out between colons, whatever it was. *)
Lemma react_emoji_wrapped (emoji : string) :
  startsWith (react_emoji emoji) ":" = true ∧ endsWith (react_emoji emoji) ":" = true.
Proof.
  unfold react_emoji.
  set (e1 := if startsWith emoji ":" then emoji else ":" ++ emoji).
  assert (∃ r, e1 = String ":" r) as [r He1].
  { subst e1. destruct (startsWith emoji ":") eqn:Hs; [|by eexists].
    apply prefix_inv in Hs as [c ->]. by exists c. }
  set (e2 := if endsWith e1 ":" then e1 else e1 ++ ":").
  assert (∃ q, e2 = String ":" q ∧ ∃ s', e2 = s' ++ ":") as (q & Hq & s' & Hs').
  { subst e2. destruct (endsWith e1 ":") eqn:He.
    - exists r. split; [done|]. by apply endsWith_inv.
    - exists (r ++ ":"). rewrite He1. split; [done|]. by eexists. }
  split.
  - rewrite Hq, replace_dash_cons.
    destruct (ascii_dec "-"%char ":"%char); [done|]. unfold startsWith.
    by rewrite prefix_one; destruct (ascii_dec ":"%char ":"%char).
  - rewrite Hs', replace_dash_snoc. apply endsWith_app.
Qed.

(** *** [respond] *)


Lemma for_in_keys_length {A} (l : list A) : List.length (for_in_keys l) = List.length l.
Proof. unfold for_in_keys. by rewrite length_fmap, length_seq. Qed.

(** When [respond] returns, it has made one driver call per string of the
    envelope, each addressed to the room (send, reply), the user (dm) or the
    message (react) of the envelope; only a reply changes the envelope, and
    only its strings. *)
Theorem respond_calls (envelope envelope' : Envelope) (method : string)
    (calls : list Call) :
  respond envelope method = Ok (envelope', calls) →
  ∃ ss, strings envelope = Some ss
        ∧ List.length calls = List.length ss
        ∧ Forall (λ c, call_target c = addressee envelope method) calls
        ∧ (method ≠ "reply" → envelope' = envelope)
        ∧ user envelope' = user envelope
        ∧ room_id envelope' = room_id envelope
        ∧ message_id envelope' = message_id envelope.
Proof.
  unfold respond, addressee.
  destruct (String.eqb_spec method "send") as [->|_].
  { destruct (strings envelope) as [ss|] eqn:Hss; [|done].
    destruct (falsy_id (room_id envelope)); [done|]. intros [= <- <-].
    exists ss. rewrite length_fmap, for_in_keys_length.
    repeat split; try done. by apply Forall_fmap, Forall_true. }
  destruct (String.eqb_spec method "dm") as [->|_].
  { destruct (strings envelope) as [ss|] eqn:Hss; [|done].
    destruct (user envelope) as [u|] eqn:Hu; [|done]. intros [= <- <-].
    exists ss. rewrite length_fmap, for_in_keys_length.
    repeat split; try done. by apply Forall_fmap, Forall_true. }
  destruct (String.eqb_spec method "reply") as [->|_].
  { destruct (strings envelope) as [ss|] eqn:Hss; [|done].
    destruct (user envelope) as [u|] eqn:Hu; [|done].
    destruct (falsy_id (room_id envelope)); [done|]. intros [= <- <-].
    exists ss. rewrite length_fmap, for_in_keys_length. simpl.
    repeat split; try done.
    - destruct (indexOf _ _ =? -1); [by rewrite length_fmap | done].
    - by apply Forall_fmap, Forall_true. }
  destruct (String.eqb_spec method "react") as [->|_]; [|done].
  destruct (strings envelope) as [ss|] eqn:Hss; [|done].
  destruct (message_id envelope) as [mid|] eqn:Hmid; [|done]. intros [= <- <-].
  exists ss. rewrite length_fmap, for_in_keys_length.
  repeat split; try done. by apply Forall_fmap, Forall_true.
Qed.

Lemma respond_calls_witness :
  let envelope := {| strings := Some ["a"; "b"];
                     user := Some {| id := "u1"; username := "bob" |};
                     room_id := Some "general"; message_id := None |} in
  ∃ ss, strings envelope = Some ss
        ∧ List.length [sendDirectToUser "0" "bob"; sendDirectToUser "1" "bob"]
          = List.length ss
        ∧ Forall (λ c, call_target c = addressee envelope "dm")
                 [sendDirectToUser "0" "bob"; sendDirectToUser "1" "bob"]
        ∧ ("dm" ≠ "reply" → envelope = envelope)
        ∧ user envelope = user envelope
        ∧ room_id envelope = room_id envelope
        ∧ message_id envelope = message_id envelope.
Proof. intros envelope. apply (respond_calls envelope envelope "dm"). reflexivity. Defined.

(** A reply rewrites [envelope.strings] in place: replying again with the
    envelope the first reply left prefixes every string a second time. *)
Theorem reply_again_prefixes_again (envelope : Envelope) (ss : list string)
    (u : User) (rid : string) :
  strings envelope = Some ss → user envelope = Some u →
  room_id envelope = Some rid → rid ≠ "" → indexOf rid (id u) = -1 →
  ∃ envelope1 calls1 envelope2 calls2,
    respond envelope "reply" = Ok (envelope1, calls1)
    ∧ respond envelope1 "reply" = Ok (envelope2, calls2)
    ∧ strings envelope2
      = Some ((λ s, "@" ++ username u ++ " " ++ "@" ++ username u ++ " " ++ s) <$> ss).
Proof.
  intros Hs Hu Hr Hne Hi. unfold respond. simpl. rewrite Hs, Hu, Hr. simpl.
  destruct (String.eqb_spec rid "") as [|_]; [done|]. rewrite Hi. simpl.
  eexists _, _. eexists _, _. split; [reflexivity|]. simpl. rewrite ?Hu, ?Hr. simpl.
  destruct (String.eqb_spec rid "") as [|_]; [done|]. rewrite ?Hi. simpl.
  split; [reflexivity|]. simpl. f_equal.
  rewrite <- list_fmap_compose. by apply list_fmap_ext.
Qed.

Lemma reply_again_prefixes_again_witness :
  let envelope := {| strings := Some ["hello"];
                     user := Some {| id := "u1"; username := "bob" |};
                     room_id := Some "general"; message_id := None |} in
  ∃ envelope1 calls1 envelope2 calls2,
    respond envelope "reply" = Ok (envelope1, calls1)
    ∧ respond envelope1 "reply" = Ok (envelope2, calls2)
    ∧ strings envelope2
      = Some ((λ s, "@" ++ "bob" ++ " " ++ "@" ++ "bob" ++ " " ++ s) <$> ["hello"]).
Proof.
  intros envelope.
  apply (reply_again_prefixes_again envelope ["hello"] {| id := "u1"; username := "bob" |}
           "general"); try reflexivity. done.
Defined.

(** Every reaction [respond] sets is named between colons. *)
Theorem react_sets_wrapped_names (envelope envelope' : Envelope) (calls : list Call) :
  respond envelope "react" = Ok (envelope', calls) →
  Forall (λ c, ∃ emoji mid, c = setReaction emoji mid
                            ∧ message_id envelope = Some mid
                            ∧ startsWith emoji ":" = true
                            ∧ endsWith emoji ":" = true) calls.
Proof.
  unfold respond. simpl.
  destruct (strings envelope) as [ss|]; [|done].
  destruct (message_id envelope) as [mid|]; [|done]. intros [= <- <-].
  apply Forall_fmap, Forall_true. intros k. simpl.
  destruct (react_emoji_wrapped k). by eexists _, _.
Qed.

Lemma react_sets_wrapped_names_witness :
  let envelope := {| strings := Some ["thumbs-up"]; user := None;
                     room_id := None; message_id := Some "m1" |} in
  Forall (λ c, ∃ emoji mid, c = setReaction emoji mid
                            ∧ message_id envelope = Some mid
                            ∧ startsWith emoji ":" = true
                            ∧ endsWith emoji ":" = true) [setReaction ":0:" "m1"].
Proof.
  intros envelope. apply (react_sets_wrapped_names envelope envelope). reflexivity.
Defined.

(** *** [process] *)

Lemma index_cons (p : string) (c : ascii) (s : string) :
  String.index 0 p (String c s)
  = if String.prefix p (String c s) then Some 0%nat
    else match String.index 0 p s with
         | Some n => Some (S n)
         | None => None
         end.
Proof. reflexivity. Qed.

Lemma indexOf_zero (s p : string) : indexOf s p = 0 ↔ String.prefix p s = true.
Proof.
  unfold indexOf. destruct s as [|c s].
  - by destruct p.
  - rewrite index_cons. destruct (String.prefix p (String c s)); [done|].
    split; [|done]. destruct (String.index 0 p s); [lia | done].
Qed.

Lemma indexOf_one (s p : string) :
  indexOf s p = 1
  ↔ String.prefix p s = false
    ∧ ∃ c s', s = String c s' ∧ String.prefix p s' = true.
Proof.
  unfold indexOf. destruct s as [|c s].
  - split; [by destruct p | by intros (_ & ? & ? & [=] & _)].
  - rewrite index_cons. destruct (String.prefix p (String c s)).
    { split; [done | by intros [[=] _]]. }
    pose proof (indexOf_zero s p) as Hz. unfold indexOf in Hz.
    destruct (String.index 0 p s) as [n|].
    + split.
      * intros Hn. split; [done|]. exists c, s. split; [done|]. apply Hz. lia.
      * intros (_ & c' & s' & [= <- <-] & Hp). apply Hz in Hp. lia.
    + split; [done|]. intros (_ & c' & s' & [= <- <-] & Hp). by apply Hz in Hp.
Qed.

Lemma prefix_at (c : ascii) (rest : string) :
  String.prefix "@" (String c rest) = true ↔ c = "@"%char.
Proof.
  rewrite prefix_one. destruct (ascii_dec "@" c) as [<-|Hc]; [done|].
  split; [done | by intros ->].
Qed.

Lemma named_addressed (name text : string) :
  (indexOf text name =? (if indexOf text "@" =? 0 then 1 else 0))
  = addressed_by name text.
Proof.
  apply eq_true_iff_eq. rewrite Z.eqb_eq.
  destruct (Z.eqb_spec (indexOf text "@") 0) as [Hat|Hat].
  - apply indexOf_zero in Hat. destruct text as [|c rest]; [done|].
    apply prefix_at in Hat as ->.
    rewrite indexOf_one. unfold addressed_by.
    rewrite andb_true_iff, negb_true_iff. split.
    + by intros (Hn & c' & s' & [= <- <-] & Hp).
    + intros [Hn Hp]. split; [done|]. by eexists _, _.
  - rewrite indexOf_zero.
    assert (∀ rest, text ≠ String "@" rest) as Hno.
    { intros rest ->. apply Hat. by apply indexOf_zero, prefix_at. }
    unfold addressed_by. destruct text as [|c rest]; [done|].
    destruct c as [[] [] [] [] [] [] [] []]; try done. by destruct (Hno rest).
Qed.

Lemma robotIsNamed_answers_to (bot : Bot) (text : string) :
  robotIsNamed bot text = true ↔ ∃ n, n ∈ answers_to bot ∧ addressed_by n text = true.
Proof.
  unfold robotIsNamed, answers_to. cbv zeta. rewrite !named_addressed.
  rewrite orb_true_iff. split.
  - intros [H|H]; eexists; (split; [|exact H]); [by left | by right; left].
  - intros (n & Hn & H). apply elem_of_cons in Hn as [->|Hn]; [by left|].
    apply list_elem_of_singleton in Hn as ->. by right.
Qed.

(** In a direct or livechat room a text is heard as it is exactly when it
    addresses the bot by one of the names it answers to: its name, its
    alias, or, the alias not being set, the word [undefined].  Otherwise it
    is heard with the bot's name and a space in front, and so starts with
    the name.  In any other room a text is heard as it is. *)
Theorem direct_text_names_the_bot (bot : Bot) (message : Incoming) (meta : Meta)
    (user : HeardUser) (text' id : string) :
  process bot None message meta = Ok (TextMessage user text' id) →
  if is_type (roomType meta) "d" || is_type (roomType meta) "l"
  then ((∃ n, n ∈ answers_to bot ∧ addressed_by n (msg message) = true)
        ∧ text' = msg message)
       ∨ ((∀ n, n ∈ answers_to bot → addressed_by n (msg message) = false)
          ∧ text' = bot_name bot ++ " " ++ msg message
          ∧ String.prefix (bot_name bot) text' = true)
  else text' = msg message.
Proof.
  unfold process.
  destruct (is_type (t message) "uj"); [done|].
  destruct (is_type (t message) "ul"); [done|].
  destruct (is_type (roomType meta) "d" || is_type (roomType meta) "l"); simpl.
  - destruct (robotIsNamed bot (msg message)) eqn:Hnamed; simpl.
    + apply robotIsNamed_answers_to in Hnamed.
      destruct (attachments message) as [[|a atts]|]; intros [= _ <- _]; by left.
    + assert (∀ n, n ∈ answers_to bot → addressed_by n (msg message) = false) as Hno.
      { intros n Hn. apply not_true_is_false. intros Ha.
        assert (robotIsNamed bot (msg message) = true) as Ht
          by (apply robotIsNamed_answers_to; by exists n).
        congruence. }
      destruct (attachments message) as [[|a atts]|]; intros [= _ <- _]; right;
        (split; [done|]); (split; [done|]); apply prefix_app.
  - by destruct (attachments message) as [[|a atts]|]; intros [= _ <- _].
Qed.

Lemma direct_text_names_the_bot_witness :
  let bot := {| bot_name := "bb"; bot_alias := None |} in
  let message := {| u_id := "u1"; u_username := "ann"; alias := None; rid := "r1";
                    msg_roomType := None; t := None; msg := "hello";
                    attachments := None; text := None; msg_id := "m1" |} in
  let meta := {| roomType := Some "d"; roomName := None |} in
  if is_type (roomType meta) "d" || is_type (roomType meta) "l"
  then ((∃ n, n ∈ answers_to bot ∧ addressed_by n (msg message) = true)
        ∧ "bb hello" = msg message)
       ∨ ((∀ n, n ∈ answers_to bot → addressed_by n (msg message) = false)
          ∧ "bb hello" = bot_name bot ++ " " ++ msg message
          ∧ String.prefix (bot_name bot) "bb hello" = true)
  else "bb hello" = msg message.
Proof.
  intros bot message meta.
  apply (direct_text_names_the_bot bot message meta
           {| hu_id := "u1"; hu_name := "ann"; hu_alias := None; hu_room_id := "r1";
              hu_room_type := None; hu_room_name := None |} "bb hello" "m1").
  reflexivity.
Defined.

(** What is heard is decided in this order: a room join, a room exit, a
    message with attachments (heard with [message.text], not the text that
    may have got the bot's name in front), a text. *)
Theorem process_hears_by_kind (bot : Bot) (message : Incoming) (meta : Meta) :
  ∃ h, process bot None message meta = Ok h
       ∧ match h with
         | EnterMessage _ id => t message = Some "uj" ∧ id = msg_id message
         | LeaveMessage _ id =>
           t message = Some "ul" ∧ id = msg_id message
         | RichMessage _ atts text' id =>
           t message ≠ Some "uj" ∧ t message ≠ Some "ul"
           ∧ attachments message = Some atts ∧ atts ≠ []
           ∧ text' = text message ∧ id = msg_id message
         | TextMessage _ _ id =>
           t message ≠ Some "uj" ∧ t message ≠ Some "ul"
           ∧ (attachments message = None ∨ attachments message = Some [])
           ∧ id = msg_id message
         end.
Proof.
  unfold process.
  assert (∀ o v, is_type o v = true ↔ o = Some v) as Hty.
  { intros [s|] v; simpl; [|done]. rewrite String.eqb_eq. naive_solver. }
  destruct (is_type (t message) "uj") eqn:Huj.
  { eexists. split; [done|]. by apply Hty in Huj. }
  destruct (is_type (t message) "ul") eqn:Hul.
  { eexists. split; [done|]. by apply Hty in Hul. }
  assert (t message ≠ Some "uj") by (intros ?%Hty; congruence).
  assert (t message ≠ Some "ul") by (intros ?%Hty; congruence).
  clear Hty Huj Hul.
  destruct (attachments message) as [[|a atts]|]; eexists; (split; [done|]);
    naive_solver.
Qed.

End RocketchatCalls.

(** ** Mongo: the store the adapter builds, and what it finds in it *)

Module MongoStore.

Import Mongo.

(** *** Documents are upserted *)

Lemma findOneAndUpdate_keys (s t : string) (u : option JsVal → JsVal) (db : Db) :
  doc_key <$> findOneAndUpdate s t u db
  = if existsb (is_doc s t) db then doc_key <$> db
    else ((doc_key <$> db) ++ [(s, t)])%list.
Proof.
  induction db as [|d db IH]; [done|].
  cbn [findOneAndUpdate existsb]. destruct (is_doc s t d) eqn:Hd; cbn [orb]; [done|].
  rewrite !fmap_cons, IH. by destruct (existsb (is_doc s t) db).
Qed.

Lemma is_doc_key (s t : string) (d : Doc) : is_doc s t d = true ↔ doc_key d = (s, t).
Proof.
  unfold is_doc, doc_key. rewrite andb_true_iff, !String.eqb_eq.
  split; [by intros [-> ->] | by intros [= -> ->]].
Qed.

Lemma findOneAndUpdate_unique (s t : string) (u : option JsVal → JsVal) (db : Db) :
  unique_docs db → unique_docs (findOneAndUpdate s t u db).
Proof.
  unfold unique_docs. rewrite findOneAndUpdate_keys. intros Hnd.
  destruct (existsb (is_doc s t) db) eqn:He; [done|].
  apply NoDup_app. split; [done|]. split; [|apply NoDup_singleton].
  intros k Hk ->%list_elem_of_singleton.
  apply list_elem_of_fmap in Hk as (d & Hd & Hin).
  assert (existsb (is_doc s t) db = true); [|congruence].
  apply existsb_exists. exists d. split; [by apply list_elem_of_In|].
  by apply is_doc_key.
Qed.

Lemma findOneAndUpdate_elem (s t : string) (u : option JsVal → JsVal) (db : Db) (d : Doc) :
  d ∈ findOneAndUpdate s t u db →
  d ∈ db ∨ (doc_key d = (s, t) ∧ ∃ old, data d = u old ∧ (∀ v, old = Some v → ∃ d0, d0 ∈ db ∧ doc_key d0 = (s, t) ∧ data d0 = v)).
Proof.
  induction db as [|d0 db IH]; simpl.
  - intros ->%list_elem_of_singleton. right. split; [done|]. by exists None.
  - destruct (is_doc s t d0) eqn:Hd.
    + intros [->|Hin]%elem_of_cons; [|left; by right].
      right. apply is_doc_key in Hd. split; [done|].
      exists (Some (data d0)). split; [done|]. intros v [= <-].
      exists d0. split; [left|done].
    + intros [->|Hin]%elem_of_cons; [left; left|].
      destruct (IH Hin) as [?|(Hk & old & Hu & Hold)]; [left; by right|].
      right. split; [done|]. exists old. split; [done|].
      intros v Hv. destruct (Hold v Hv) as (d1 & ? & ? & ?). exists d1.
      split; [by right|done].
Qed.

(** The adapter keeps its store well formed: [keep] and [saveMemory] leave
    it with one document per sub and type, and with a list under every
    serial store. *)
Theorem store_stays_well_formed (db : Db) :
  unique_docs db → store_lists db →
  (∀ sub_ item, unique_docs (keep sub_ item db) ∧ store_lists (keep sub_ item db))
  ∧ (∀ x, unique_docs (saveMemory x db) ∧ store_lists (saveMemory x db)).
Proof.
  intros Hu Hl. split.
  - intros sub_ item. split; [by apply findOneAndUpdate_unique|].
    intros d [Hin|(_ & old & Hd & Hold)]%findOneAndUpdate_elem Ht; [by apply Hl|].
    destruct old as [v|]; [|by eexists].
    destruct (Hold v eq_refl) as (d0 & Hin0 & [= _ Ht0] & Hv).
    destruct (Hl d0 Hin0 Ht0) as [xs Hxs]. rewrite Hd, <- Hv, Hxs. by eexists.
  - intros x. revert db Hu Hl. unfold saveMemory.
    induction x as [|[k v] x IH]; intros db Hu Hl; simpl; [done|].
    apply IH; [by apply findOneAndUpdate_unique|].
    intros d [Hin|([= _ Ht] & _)]%findOneAndUpdate_elem Hs; [by apply Hl|].
    congruence.
Qed.

Lemma store_stays_well_formed_witness :
  (∀ sub_ item, unique_docs (keep sub_ item []) ∧ store_lists (keep sub_ item []))
  ∧ (∀ x, unique_docs (saveMemory x []) ∧ store_lists (saveMemory x [])).
Proof.
  apply (store_stays_well_formed []).
  - apply NoDup_nil_2.
  - by intros d ?%elem_of_nil.
Defined.

(** *** Memory and serial stores do not meet *)

Lemma find_findOneAndUpdate_other (P : Doc → bool) (s t : string)
    (u : option JsVal → JsVal) (db : Db) :
  (∀ d, type d = t → P d = false) →
  List.find P (findOneAndUpdate s t u db) = List.find P db.
Proof.
  intros HP. induction db as [|d db IH]; simpl.
  - by rewrite HP.
  - destruct (is_doc s t d) eqn:Hd; simpl; [|by rewrite IH].
    apply is_doc_key in Hd as [= _ Ht]. by rewrite !HP.
Qed.

Lemma filter_findOneAndUpdate_other (s : string) (u : option JsVal → JsVal) (db : Db) :
  filter (λ d, type d = "memory") (findOneAndUpdate s "store" u db)
  = filter (λ d, type d = "memory") db.
Proof.
  induction db as [|d db IH]; [done|]. cbn [findOneAndUpdate].
  destruct (is_doc s "store" d) eqn:Hd.
  - apply is_doc_key in Hd as [= _ Ht].
    rewrite !filter_cons_False; [done | by rewrite Ht | simpl; by rewrite Ht].
  - rewrite !filter_cons, IH. done.
Qed.

(** Keeping an item in a serial store changes nothing of what [loadMemory]
    returns, and saving the memory changes nothing of what [find] and
    [findOne] return. *)
Theorem memory_and_stores_are_apart (User : JsVal → JsVal) (db : Db) :
  (∀ sub_ item, loadMemory User (keep sub_ item db) = loadMemory User db)
  ∧ (∀ x sub_ params,
       findOne sub_ params (saveMemory x db) = findOne sub_ params db
       ∧ find sub_ params (saveMemory x db) = find sub_ params db).
Proof.
  split.
  - intros sub_ item. unfold loadMemory, keep.
    by rewrite filter_findOneAndUpdate_other.
  - intros x sub_ params.
    assert (findOne_doc sub_ params (saveMemory x db) = findOne_doc sub_ params db)
      as Hdoc; [|unfold findOne, find; by rewrite Hdoc].
    unfold findOne_doc, saveMemory. revert db.
    induction x as [|[k v] x IH]; intros db; simpl; [done|].
    rewrite IH. apply find_findOneAndUpdate_other.
    intros d Ht. unfold is_doc. rewrite Ht. simpl. by rewrite andb_false_r.
Qed.

(** *** [findOne] and [find] *)

Lemma findOne_doc_Some (sub_ : string) (params : Obj) (db : Db) (d : Doc) :
  findOne_doc sub_ params db = Some d →
  d ∈ db ∧ sub d = toLowerCase sub_ ∧ type d = "store"
  ∧ ∃ xs, data d = VArr xs ∧ existsb (elemMatch params) xs = true.
Proof.
  unfold findOne_doc. intros [Hin Hp]%find_some.
  apply andb_true_iff in Hp as [[= ? ?]%is_doc_key Hx].
  split; [by apply list_elem_of_In|]. split; [done|]. split; [done|].
  destruct (data d); try done. by eexists.
Qed.

(** [findOne] returns an element of the list kept under the sub that is
    equal to the parameters on every key, and it returns nothing only when
    no list kept under the sub holds such an element. *)
Theorem findOne_finds_a_match (sub_ : string) (params : Obj) (db : Db) :
  match findOne sub_ params db with
  | Some v =>
    ∃ d xs, d ∈ db ∧ sub d = toLowerCase sub_ ∧ type d = "store"
            ∧ data d = VArr xs ∧ v ∈ xs ∧ elemMatch params v = true
  | None =>
    ∀ d xs v, d ∈ db → sub d = toLowerCase sub_ → type d = "store" →
              data d = VArr xs → v ∈ xs → elemMatch params v = false
  end.
Proof.
  unfold findOne. destruct (findOne_doc sub_ params db) as [d|] eqn:Hd.
  - apply findOne_doc_Some in Hd as (Hin & Hs & Ht & xs & Hxs & Hex).
    rewrite Hxs. apply existsb_exists in Hex as (v & Hv & Hm).
    destruct (List.find (elemMatch params) xs) as [v'|] eqn:Hf.
    + apply find_some in Hf as [Hv' Hm']. simpl.
      exists d, xs. repeat split; try done. by apply list_elem_of_In.
    + by rewrite (find_none _ _ Hf v Hv) in Hm.
  - intros d xs v Hin Hs Ht Hxs Hv. unfold findOne_doc in Hd.
    apply list_elem_of_In in Hin. pose proof (find_none _ _ Hd d Hin) as Hn.
    cbv beta in Hn. rewrite Hxs in Hn. unfold is_doc in Hn. rewrite Hs, Ht, !String.eqb_refl in Hn.
    simpl in Hn. destruct (elemMatch params v) eqn:Hm; [|done].
    assert (existsb (elemMatch params) xs = true); [|congruence].
    apply existsb_exists. exists v. split; [by apply list_elem_of_In|done].
Qed.

Lemma filter_items_sublist (params : Obj) (items l : list JsVal) :
  filter_items params items = Ok l → sublist l items.
Proof.
  revert l. induction items as [|item items IH]; intros l; simpl.
  - intros [= <-]. constructor.
  - destruct (match_item params item) as [keepit| | |]; try done. simpl.
    destruct (filter_items params items) as [rest| | |]; try done. simpl.
    intros [= <-]. destruct keepit; constructor; by apply IH.
Qed.

(** [find] is undefined exactly when [findOne] is; what it returns
    otherwise are elements of a list kept under the sub, in the order they
    are kept. *)
Theorem find_returns_kept_elements (sub_ : string) (params : Obj) (db : Db) :
  (find sub_ params db = Ok None ↔ findOne sub_ params db = None)
  ∧ ∀ l, find sub_ params db = Ok (Some l) →
      ∃ d xs, d ∈ db ∧ sub d = toLowerCase sub_ ∧ type d = "store"
              ∧ data d = VArr xs ∧ sublist l xs.
Proof.
  unfold find, findOne. destruct (findOne_doc sub_ params db) as [d|] eqn:Hd.
  - apply findOne_doc_Some in Hd as (Hin & Hs & Ht & xs & Hxs & Hex).
    rewrite Hxs. split.
    + split; [|done]. by destruct (filter_items params xs).
    + intros l. destruct (filter_items params xs) as [l'| | |] eqn:Hf; try done.
      simpl. intros [= <-]. exists d, xs. repeat split; try done.
      by apply filter_items_sublist in Hf.
  - split; [done|]. by intros l.
Qed.

(** With no parameter at all, [find] returns no element, whatever is kept. *)
Theorem find_without_params_finds_nothing (sub_ : string) (db : Db) :
  find sub_ [] db = Ok None ∨ find sub_ [] db = Ok (Some []).
Proof.
  unfold find. destruct (findOne_doc sub_ [] db) as [d|] eqn:Hd; [|by left].
  apply findOne_doc_Some in Hd as (_ & _ & _ & xs & -> & _). right.
  assert (filter_items [] xs = Ok []) as ->; [|done].
  induction xs as [|x xs IH]; simpl; [done|]. by rewrite IH.
Qed.

(** *** [keep], then [findOne] *)

Lemma val_eqb_refl : ∀ v, val_eqb v v = true.
Proof.
  fix IH 1. intros [| |b0|z|s|fs|xs]; simpl; try done.
  - by destruct b0.
  - apply Z.eqb_refl.
  - apply String.eqb_refl.
  - induction fs as [|[k v] fs IHfs]; [done|].
    by rewrite String.eqb_refl, IH, IHfs.
  - induction xs as [|x xs IHxs]; [done|]. by rewrite IH, IHxs.
Qed.

Lemma obj_lookup_NoDup (k : string) (v : JsVal) (fs : Obj) :
  NoDup fs.*1 → (k, v) ∈ fs → obj_lookup k fs = Some v.
Proof.
  induction fs as [|[k' v'] fs IH]; simpl; [by intros _ ?%elem_of_nil|].
  intros [Hk Hnd]%NoDup_cons [[= -> ->]|Hin]%elem_of_cons.
  - by rewrite String.eqb_refl.
  - destruct (String.eqb_spec k k') as [->|_]; [|by apply IH].
    destruct Hk. apply list_elem_of_fmap. by exists (k', v).
Qed.

Lemma elemMatch_self (fs : Obj) : NoDup fs.*1 → elemMatch fs (VObj fs) = true.
Proof.
  intros Hnd. simpl. apply forallb_forall. intros [k v] Hin%list_elem_of_In.
  unfold field_matches. simpl. rewrite (obj_lookup_NoDup k v fs Hnd Hin).
  apply val_eqb_refl.
Qed.

Lemma find_findOneAndUpdate_same (s t : string) (u : option JsVal → JsVal) (db : Db) :
  List.find (is_doc s t) (findOneAndUpdate s t u db)
  = Some match List.find (is_doc s t) db with
         | Some d => {| type := type d; sub := sub d; data := u (Some (data d)) |}
         | None => {| type := t; sub := s; data := u None |}
         end.
Proof.
  induction db as [|d db IH]; simpl.
  - unfold is_doc. simpl. by rewrite !String.eqb_refl.
  - destruct (is_doc s t d) eqn:Hd; simpl.
    + unfold is_doc in *. simpl. by rewrite Hd.
    + by rewrite Hd.
Qed.

Lemma find_conj (P Q : Doc → bool) (db : Db) (d : Doc) :
  List.find P db = Some d → Q d = true →
  List.find (λ d, P d && Q d) db = Some d.
Proof.
  induction db as [|d0 db IH]; simpl; [done|].
  destruct (P d0) eqn:HP; simpl; [|done]. intros [= ->] ->. done.
Qed.

Lemma stored_keep (sub_ : string) (item : JsVal) (db : Db) :
  store_lists db →
  stored sub_ (keep sub_ item db) = Some (default [] (stored sub_ db) ++ [item])%list.
Proof.
  intros Hl. unfold stored, keep. rewrite find_findOneAndUpdate_same.
  destruct (List.find (is_doc (toLowerCase sub_) "store") db) as [d|] eqn:Hf; [|done].
  apply find_some in Hf as [Hin [= _ Ht]%is_doc_key].
  destruct (Hl d) as [xs Hxs]; [by apply list_elem_of_In | done |].
  destruct d as [ty sb dt]. simpl in *. by subst.
Qed.

Lemma stored_lower (sub1 sub2 : string) (db : Db) :
  toLowerCase sub1 = toLowerCase sub2 → stored sub2 db = stored sub1 db.
Proof. intros Hsub. unfold stored. by rewrite Hsub. Qed.

(** [keep] puts the item at the end of the list kept under the sub, a new
    list when there was none; the letter case of the sub does not matter. *)
Theorem keep_appends (sub1 sub2 : string) (item : JsVal) (db : Db) :
  store_lists db → toLowerCase sub1 = toLowerCase sub2 →
  stored sub2 (keep sub1 item db) = Some (default [] (stored sub1 db) ++ [item])%list.
Proof.
  intros Hl Hsub.
  rewrite (stored_lower sub1 sub2) by done.
  by apply stored_keep.
Qed.

Lemma keep_appends_witness :
  stored "states" (keep "States" (VNum 2) (keep "states" (VNum 1) []))
  = Some (default [] (stored "States" (keep "states" (VNum 1) [])) ++ [VNum 2])%list.
Proof.
  apply (keep_appends "States" "states" (VNum 2) (keep "states" (VNum 1) []));
    [|reflexivity].
  intros d Hd%list_elem_of_singleton _. subst d. by eexists.
Defined.

(** After [keep (sub, item)], where the item is an object, [findOne] with
    the item's own fields as parameters is defined, and what it returns is
    equal to the item on every field. *)
Theorem keep_then_findOne (sub1 sub2 : string) (fs : Obj) (db : Db) :
  store_lists db → toLowerCase sub1 = toLowerCase sub2 → NoDup fs.*1 →
  ∃ v, findOne sub2 fs (keep sub1 (VObj fs) db) = Some v
       ∧ elemMatch fs v = true.
Proof.
  intros Hl Hsub Hnd.
  pose proof (stored_keep sub1 (VObj fs) db Hl) as Hst.
  rewrite <- (stored_lower sub1 sub2) in Hst by done.
  unfold stored in Hst.
  destruct (List.find (is_doc (toLowerCase sub2) "store") (keep sub1 (VObj fs) db))
    as [[ty sb dt]|] eqn:Hf; [|done].
  destruct dt as [| | | | | |xs]; try done. injection Hst as ->.
  set (xs := (default [] (stored sub1 db) ++ [VObj fs])%list) in *.
  assert (existsb (elemMatch fs) xs = true) as Hex.
  { apply existsb_exists. exists (VObj fs). split; [|by apply elemMatch_self].
    apply in_or_app. right. by left. }
  unfold findOne, findOne_doc.
  rewrite (find_conj _ (λ d, match data d with
                             | VArr xs => existsb (elemMatch fs) xs
                             | _ => false
                             end) _ _ Hf Hex). simpl.
  destruct (List.find (elemMatch fs) xs) as [v|] eqn:Hv.
  - exists v. split; [by unfold xs, stored in Hv; rewrite Hv|]. by apply find_some in Hv as [_ ?].
  - apply existsb_exists in Hex as (v & Hin & Hm).
    by rewrite (find_none _ _ Hv v Hin) in Hm.
Qed.

Lemma keep_then_findOne_witness :
  ∃ v, findOne "states" [("a", VNum 1)] (keep "States" (VObj [("a", VNum 1)]) []) = Some v
       ∧ elemMatch [("a", VNum 1)] v = true.
Proof.
  apply (keep_then_findOne "States" "states" [("a", VNum 1)] []); [|reflexivity|].
  - by intros d ?%elem_of_nil.
  - apply NoDup_singleton.
Defined.

(** *** Saving the memory again *)








End MongoStore.

(** ** The thought process: the other stages and sequences *)

Module ThoughtSequences.

Import Thought.

Section Stages.

Context {hooks : Hooks}.

Ltac run_simpl :=
  unfold mbind, mret, SE_bind, SE_ret, get, modify, throw, emit, in_ctx,
    in_world, state_of in *; simpl in *.

Lemma start_unfold (t : Thoughts) (sequence_ : string) (names : list string) (r : Run) :
  lookup_name sequence_ (sequences t) = Some names →
  start t sequence_ r
  = match run_sequence (processes t) names
            {| ctx := {| world := begin_sequence sequence_ (world (ctx r));
                         tpath := tpath (ctx r) |};
               trace := trace r |} with
    | (Ok _, r1) => (Ok (state_of r1), r1)
    | (Throw e, r1) => (Throw e, r1)
    | (Reject v, r1) => (Reject v, r1)
    | (Pending, r1) => (Pending, r1)
    end.
Proof.
  intros Hs. unfold start. rewrite Hs.
  unfold mbind, SE_bind, in_ctx, in_world, modify, get, mret, SE_ret.
  cbv beta iota.
  by destruct (run_sequence _ _ _) as [[[]|e|v|] r1].
Qed.

(** *** [exit] *)

Lemma run_sequence_exit (ps : list (string * Thought)) (names : list string) (r : Run) :
  exit (state_of r) = true →
  Forall (λ n, is_Some (lookup_name n ps)) names →
  run_sequence ps names r = (Ok (), r).
Proof.
  intros He. induction names as [|n names IH]; [done|].
  intros [[t Ht] Hall]%Forall_cons. rewrite ThoughtFacts.run_sequence_cons, Ht.
  rewrite ThoughtFacts.process_exit by done. by apply IH.
Qed.

(** A sequence started on a state whose [exit] is set runs none of its
    stages: no validation, middleware, branch or action; only the name of
    the sequence is noted on a state that has none. *)
Theorem exit_aborts_sequence (t : Thoughts) (sequence_ : string)
    (names : list string) (r : Run) :
  new_Thoughts = Ok t →
  lookup_name sequence_ (sequences t) = Some names →
  exit (state_of r) = true →
  start t sequence_ r
  = (Ok (b (begin_sequence sequence_ (world (ctx r)))),
     {| ctx := {| world := begin_sequence sequence_ (world (ctx r));
                  tpath := tpath (ctx r) |};
        trace := trace r |}).
Proof.
  intros (mh & ml & mu & ms & ma & mr & mm & _ & _ & ->)%ThoughtFacts.new_Thoughts_Ok.
  intros Hnames He. unfold start. rewrite Hnames.
  set (ps := processes _).
  unfold mbind, SE_bind, in_ctx, in_world, modify, get, mret, SE_ret. cbv beta iota.
  rewrite run_sequence_exit; [done | |].
  - unfold state_of. simpl. by rewrite ThoughtFacts.begin_sequence_flags.
  - simpl in Hnames. unfold default_sequences in Hnames. simpl in Hnames.
    repeat match type of Hnames with
           | context [String.eqb sequence_ ?k] =>
             destruct (String.eqb_spec sequence_ k) as [->|_]
           end; try done; injection Hnames as <-;
      repeat (apply Forall_cons; split; [by eexists|]); by apply Forall_nil.
Qed.

(** *** Stages that are skipped *)

(** A branch stage of [Thoughts] whose collection is empty, or that is
    entered with [done] set, is failed at once: the run is left as it was.
    Nothing is validated, so that the NLU adapter is not asked and the
    message is not wrapped in a catch-all, and no middleware runs. *)
Theorem branch_stage_skipped_untouched (t : Thought) (collection : Path → Branches)
    (r : Run) :
  (∃ mw, t = listen_stage mw ∨ t = understand_stage mw ∨ t = serve_stage mw
         ∨ t = act_stage mw) →
  branches t = Some collection →
  collection (tpath (ctx r)) = [] ∨ done (state_of r) = true →
  exit (state_of r) = false →
  process t r
  = (Ok (), {| ctx := ctx r;
               trace := (trace r ++ [Acted (name t) false (state_of r)])%list |}).
Proof.
  intros [mw Ht] Hb Hskip He. unfold process. rewrite He.
  assert (action t false (ctx r) = (Ok (), ctx r)) as Hact.
  { by destruct Ht as [->|[->|[->| ->]]]. }
  assert (attempt t r = (Ok false, r)) as ->.
  { unfold attempt. rewrite Hb. run_simpl. destruct Hskip as [Hempty|Hd].
    - rewrite bool_decide_eq_true_2; [by destruct r|].
      by apply ThoughtFacts.for_in_nil.
    - case_bool_decide; rewrite ?Hd; by destruct r. }
  rewrite ThoughtFacts.on_reject_called. unfold called. by rewrite Hact.
Qed.

(** *** Stages without branches *)

Lemma process_plain (t : Thought) (r : Run) :
  branches t = None →
  exit (state_of r) = false →
  process t r
  = match validate t (ctx r) with
    | (Ok true, c1) =>
      let after w2 := {| ctx := {| world := w2; tpath := tpath c1 |};
                         trace := trace r |} in
      match execute (middleware t) (world c1) with
      | (Ok true, w2) =>
        match called t true (after (stamp (name t) w2)) with
        | (Reject _, r4) => called t false r4
        | o => o
        end
      | (Ok false, w2) | (Reject (Some _), w2) => called t false (after w2)
      | (Throw e, w2) => (Throw e, after w2)
      | (Reject None, w2) | (Pending, w2) => (Pending, after w2)
      end
    | (Ok false, c1) => called t false {| ctx := c1; trace := trace r |}
    | (Throw e, c1) => (Throw e, {| ctx := c1; trace := trace r |})
    | (Reject v, c1) =>
      if validate_sync t || bool_decide (is_Some v)
      then called t false {| ctx := c1; trace := trace r |}
      else (Pending, {| ctx := c1; trace := trace r |})
    | (Pending, c1) => (Pending, {| ctx := c1; trace := trace r |})
    end.
Proof.
  intros Hb He. unfold process. rewrite He. unfold attempt. rewrite Hb.
  unfold in_ctx at 1.
  destruct (validate t (ctx r)) as [[[]|e|v|] c1].
  - unfold caught, in_ctx, in_world. cbn [ctx world tpath trace].
    destruct (execute (middleware t) (world c1)) as [[[]|e|[v|]|] w2];
      rewrite ?ThoughtFacts.on_resolve_called, ?ThoughtFacts.on_reject_called;
      reflexivity.
  - by rewrite ThoughtFacts.on_reject_called.
  - done.
  - destruct (validate_sync t), v as [v|]; simpl; unfold caught;
      rewrite ?ThoughtFacts.on_reject_called; reflexivity.
  - done.
Qed.

(** A stage without branches, entered with [exit] unset.  Its action is
    called with true exactly when its validation returns true and every
    piece of its middleware passes control on; the call is then the first
    step noted, on a state that carries the timestamp of the stage, and
    when it fails with a value that is not an error the action is called
    with false as well.  When the validation returns false the middleware
    is not run: the action is called with false on what the validation
    left. *)
Theorem process_without_branches (t : Thought) (r : Run) :
  branches t = None →
  exit (state_of r) = false →
  ((∃ s rest, trace (process t r).2 = (trace r ++ Acted (name t) true s :: rest)%list)
   ↔ ∃ c1 w2, validate t (ctx r) = (Ok true, c1)
              ∧ execute (middleware t) (world c1) = (Ok true, w2))
  ∧ (∀ c1 w2, validate t (ctx r) = (Ok true, c1) →
       execute (middleware t) (world c1) = (Ok true, w2) →
       let r3 := {| ctx := {| world := stamp (name t) w2; tpath := tpath c1 |};
                    trace := trace r |} in
       is_Some (processed (state_of r3) !! name t)
       ∧ process t r
         = match called t true r3 with
           | (Reject _, r4) => called t false r4
           | o => o
           end)
  ∧ ∀ c1, validate t (ctx r) = (Ok false, c1) →
      process t r = called t false {| ctx := c1; trace := trace r |}.
Proof.
  intros Hb He. rewrite (process_plain t r Hb He).
  assert (∀ (A : Type) (l : list A) (x : A) (k : list A),
            l ≠ (l ++ x :: k)%list) as Hnil.
  { intros A l x k Heq. rewrite <- (app_nil_r l) in Heq at 1.
    by apply app_inv_head in Heq. }
  assert (∀ r1 : Run, trace r1 = trace r →
            ¬ ∃ s rest, trace (called t false r1).2
                        = (trace r ++ Acted (name t) true s :: rest)%list) as Hfalse.
  { intros r1 Htr (s & rest & Heq).
    destruct (called t false r1) as [res2 r2] eqn:Hc.
    apply ThoughtFacts.called_trace in Hc as [Htr2 _]. simpl in Heq.
    rewrite Htr2, Htr in Heq. by apply app_inv_head in Heq. }
  assert (∀ r1 : Run, trace r1 = trace r →
            ∃ s rest, trace (match called t true r1 with
                             | (Reject _, r4) => called t false r4
                             | o => o
                             end).2
                      = (trace r ++ Acted (name t) true s :: rest)%list) as Htrue.
  { intros r1 Htr. destruct (called t true r1) as [res2 r2] eqn:Hc.
    apply ThoughtFacts.called_trace in Hc as [Htr2 _]. rewrite Htr in Htr2.
    destruct res2 as [[]|e|v|]; try (by eexists _, []).
    destruct (called t false r2) as [res3 r3] eqn:Hc3.
    apply ThoughtFacts.called_trace in Hc3 as [Htr3 _]. simpl.
    rewrite Htr3, Htr2, <- app_assoc. by eexists _, [_]. }
  destruct (validate t (ctx r)) as [[[]|e|v|] c1].
  - cbv zeta.
    destruct (execute (middleware t) (world c1)) as [[[]|e|[v|]|] w2] eqn:Hex.
    + split; [|split].
      * split; [intros _; by eexists _, _ | intros _; by apply Htrue].
      * intros c w [= <-] Hx. rewrite Hex in Hx. injection Hx as <-.
        split; [apply ThoughtFacts.stamp_is_Some|done].
      * by intros c [=].
    + split; [|split].
      * split; [by intros ?%Hfalse|]. intros (c & w & [= <-] & Hx). congruence.
      * intros c w [= <-]. congruence.
      * by intros c [=].
    + split; [|split].
      * split; [by intros (s & rest & ?%Hnil)|].
        intros (c & w & [= <-] & Hx). congruence.
      * intros c w [= <-]. congruence.
      * by intros c [=].
    + split; [|split].
      * split; [by intros ?%Hfalse|]. intros (c & w & [= <-] & Hx). congruence.
      * intros c w [= <-]. congruence.
      * by intros c [=].
    + split; [|split].
      * split; [by intros (s & rest & ?%Hnil)|].
        intros (c & w & [= <-] & Hx). congruence.
      * intros c w [= <-]. congruence.
      * by intros c [=].
    + split; [|split].
      * split; [by intros (s & rest & ?%Hnil)|].
        intros (c & w & [= <-] & Hx). congruence.
      * intros c w [= <-]. congruence.
      * by intros c [=].
  - split; [|split].
    + split; [by intros ?%Hfalse | by intros (c & w & [=] & _)].
    + by intros c w [=].
    + by intros c [= <-].
  - split; [|split]; [|by intros c w [=] | by intros c [=]].
    split; [by intros (s & rest & ?%Hnil) | by intros (c & w & [=] & _)].
  - split; [|split]; [|by intros c w [=] | by intros c [=]].
    split; [|by intros (c & w & [=] & _)].
    destruct (validate_sync t || bool_decide (is_Some v)).
    + by intros ?%Hfalse.
    + by intros (s & rest & ?%Hnil).
  - split; [|split]; [|by intros c w [=] | by intros c [=]].
    split; [by intros (s & rest & ?%Hnil) | by intros (c & w & [=] & _)].
Qed.

(** *** Construction *)


(** *** Without a message adapter *)

Lemma begin_sequence_adapters (q : string) (w : World) :
  adapters (begin_sequence q w) = adapters w
  ∧ exit (b (begin_sequence q w)) = exit (b w).
Proof.
  unfold begin_sequence. destruct (sequence (b w)) as [q'|]; [|done].
  by destruct (String.eqb q' "").
Qed.

(** Without a message adapter, [dispatch], and [respond] on a state that is
    not exited, throw before any middleware runs and before anything is
    remembered. *)
Theorem no_message_adapter_rejects (t : Thoughts) (w : World) :
  new_Thoughts = Ok t →
  message_adapter (adapters w) = None →
  (∀ envelope,
     dispatch envelope w
     = (Throw "[thought] message adapter not found",
        begin_sequence "dispatch" (set_b (state_create None (Some [envelope])) w), []))
  ∧ (∀ state, exit state = false →
       respond state w
       = (Throw "[thought] message adapter not found",
          begin_sequence "respond" (set_b state w), [])).
Proof.
  intros Ht Ha. pose proof Ht as Ht'.
  apply ThoughtFacts.new_Thoughts_Ok
    in Ht' as (mh & ml & mu & ms & ma & mr & mm & _ & _ & ->).
  assert (∀ q w0, adapters w0 = adapters w → exit (b w0) = false →
            process (respond_stage mr)
              {| ctx := {| world := begin_sequence q w0; tpath := global w |};
                 trace := [] |}
            = (Throw "[thought] message adapter not found",
               {| ctx := {| world := begin_sequence q w0; tpath := global w |};
                  trace := [] |})) as Hp.
  { intros q w0 Hw0 He0.
    destruct (begin_sequence_adapters q w0) as [Haq Heq].
    assert (message_adapter (adapters (begin_sequence q w0)) = None) as Hm
      by (by rewrite Haq, Hw0).
    rewrite He0 in Heq. clear Haq.
    generalize dependent (begin_sequence q w0). intros w1 Heq Hm.
    unfold process, attempt. run_simpl. rewrite Heq.
    unfold respond_validate, in_world. simpl. by rewrite Hm. }
  split.
  - intros envelope. unfold dispatch. rewrite Ht.
    rewrite (start_unfold _ "dispatch" ["respond"; "remember"]) by reflexivity.
    rewrite ThoughtFacts.run_sequence_cons.
    change (lookup_name "respond" (processes _)) with (Some (respond_stage mr)).
    cbv beta iota. unfold path_create. simpl ctx. simpl world. simpl tpath.
    simpl trace. by rewrite Hp.
  - intros state He. unfold respond. rewrite Ht.
    rewrite (start_unfold _ "respond" ["respond"]) by reflexivity.
    rewrite ThoughtFacts.run_sequence_cons.
    change (lookup_name "respond" (processes _)) with (Some (respond_stage mr)).
    cbv beta iota. unfold path_create. simpl ctx. simpl world. simpl tpath.
    simpl trace. by rewrite Hp.
Qed.

(** *** respond *)

Lemma pending_after_alter (s : State) (f : Envelope → Envelope) (i : nat) (e : Envelope) :
  (∀ e, responded (f e) = responded e) →
  pendingEnvelope s = Some (i, e) →
  pendingEnvelope (set_envelopes ((λ es, alter f i es) <$> envelopes s) s) = Some (i, f e)
  ∧ ∀ j, j ≠ i →
      queued (set_envelopes ((λ es, alter f i es) <$> envelopes s) s) j = queued s j.
Proof.
  intros Hf. unfold pendingEnvelope, queued.
  destruct (envelopes s) as [es|]; simpl; [|done].
  intros (Hi & HP & Hlt)%list_find_Some. split.
  - apply list_find_Some. split; [by rewrite list_lookup_alter_eq, Hi|].
    split; [by rewrite Hf|]. intros j y Hj Hji.
    rewrite list_lookup_alter_ne in Hj by lia. by eapply Hlt.
  - intros j Hj. by rewrite list_lookup_alter_ne.
Qed.

(** [respond.validate] throws without a message adapter.  With one, it
    returns true exactly when an envelope of the queue has not been
    responded; the first such envelope then carries the id of the state's
    branch, if there is one, and is still the pending envelope, while every
    other envelope is as it was. *)
Theorem respond_validate_spec (w : World) :
  (message_adapter (adapters w) = None →
     respond_validate w = (Throw "[thought] message adapter not found", w))
  ∧ (is_Some (message_adapter (adapters w)) →
     ∃ (r : bool) (w' : World),
       respond_validate w = (Ok r, w')
       ∧ (r = true ↔ ∃ e, e ∈ default [] (envelopes (b w)) ∧ responded e = None)
       ∧ (r = false → w' = w)
       ∧ ∀ i e, pendingEnvelope (b w) = Some (i, e) →
           pendingEnvelope (b w')
           = Some (i, match branch (b w) with
                      | Some br => with_branchId (branch_id br) e
                      | None => e
                      end)
           ∧ ∀ j, j ≠ i → queued (b w') j = queued (b w) j).
Proof.
  unfold respond_validate. split; [by intros ->|]. intros [a ->].
  destruct (pendingEnvelope (b w)) as [[i e]|] eqn:Hp.
  - assert (∃ e, e ∈ default [] (envelopes (b w)) ∧ responded e = None) as Hex.
    { unfold pendingEnvelope in Hp. apply list_find_Some in Hp as (Hi & HP & _).
      exists e. split; [by eapply list_elem_of_lookup_2 | done]. }
    destruct (branch (b w)) as [br|] eqn:Hbr.
    + eexists _, _. split; [reflexivity|]. split; [done|]. split; [done|].
      intros i' e' [= <- <-]. simpl.
      by apply (pending_after_alter (b w) (with_branchId (branch_id br)) i e).
    + eexists _, _. split; [reflexivity|]. split; [done|]. split; [done|].
      by intros i' e' [= <- <-].
  - eexists _, _. split; [reflexivity|]. split; [|done]. split; [done|].
    intros (e & Hin & He). unfold pendingEnvelope in Hp.
    apply list_find_None in Hp. rewrite Forall_forall in Hp. by destruct (Hp e Hin).
Qed.

(** When [respond.action] is called with true on a state with a pending
    envelope, and the adapter's [dispatch] leaves the queue as it is, that
    envelope is marked as responded at the current time, every other
    envelope is as it was, the state has a dispatched envelope, and the
    next pending envelope, if any, comes later in the queue. *)
Theorem respond_action_marks (w w2 : World) (i : nat) (e : Envelope) :
  is_Some (message_adapter (adapters w)) →
  pendingEnvelope (b w) = Some (i, e) →
  message_dispatch e w = (Ok (), w2) →
  envelopes (b w2) = envelopes (b w) →
  ∃ w3,
    respond_action true w = (Ok (), w3)
    ∧ queued (b w3) i = Some (with_responded (now w2) e)
    ∧ (∀ j, j ≠ i → queued (b w3) j = queued (b w) j)
    ∧ is_Some (dispatchedEnvelope (b w3))
    ∧ ∀ j e', pendingEnvelope (b w3) = Some (j, e') → (i < j)%nat.
Proof.
  intros [a Ha] Hp Hd Hq. unfold respond_action, respondEnvelope.
  rewrite Hp, Ha. unfold mbind, SE_bind, modify. rewrite Hd.
  eexists. split; [reflexivity|].
  unfold pendingEnvelope in Hp. unfold queued, pendingEnvelope. simpl. rewrite Hq.
  destruct (envelopes (b w)) as [es|]; simpl in *; [|done].
  apply list_find_Some in Hp as (Hi & HP & Hlt).
  split; [by rewrite list_lookup_alter_eq, Hi|].
  split; [by intros j Hj; rewrite list_lookup_alter_ne|]. split.
  - apply ThoughtFacts.dispatchedEnvelope_is_Some. simpl. rewrite Hq. simpl.
    exists (with_responded (now w2) e). split; [|by eexists].
    apply (list_elem_of_lookup_2 _ i). by rewrite list_lookup_alter_eq, Hi.
  - intros j e' (Hj & HP' & _)%list_find_Some.
    destruct (decide (j = i)) as [->|Hne].
    + rewrite list_lookup_alter_eq, Hi in Hj. by injection Hj as <-.
    + rewrite list_lookup_alter_ne in Hj by done.
      destruct (decide (j < i)%nat) as [Hlt'|]; [|lia].
      by destruct (Hlt j e' Hj Hlt').
Qed.

End Stages.


(** *** Concrete runs *)

Import Scenario.

Lemma exit_aborts_sequence_witness :
  let r := {| ctx := {| world := set_b (exited (state_create (Some (said "thanks")) None))
                                       (engaged_world ["thanks"]);
                        tpath := listen_path ["thanks"] |};
              trace := [] |} in
  ∃ t, new_Thoughts (hooks := demo_hooks []) = Ok t
       ∧ start (hooks := demo_hooks []) t "receive" r
         = (Ok (b (begin_sequence "receive" (world (ctx r)))),
            {| ctx := {| world := begin_sequence "receive" (world (ctx r));
                         tpath := tpath (ctx r) |};
               trace := trace r |}).
Proof.
  intros r. eexists. split; [reflexivity|].
  apply (exit_aborts_sequence (hooks := demo_hooks []) _ "receive"
           ["hear"; "listen"; "understand"; "act"; "remember"] r); reflexivity.
Defined.

(** The understand stage on a path that only listens. *)
Lemma branch_stage_skipped_untouched_witness :
  let t := understand_stage (hooks := nlu_hooks) [] in
  let r := {| ctx := {| world := nlu_world "thanks" 0;
                        tpath := listen_path ["thanks"] |};
              trace := [] |} in
  process (hooks := nlu_hooks) t r
  = (Ok (), {| ctx := ctx r;
               trace := (trace r ++ [Acted (name t) false (state_of r)])%list |}).
Proof.
  intros t r.
  apply (branch_stage_skipped_untouched (hooks := nlu_hooks) t understand r);
    [exists []; right; by left | reflexivity | by left | reflexivity].
Defined.

(** The hear stage with a middleware that completes early. *)
Lemma process_without_branches_witness :
  let t := hear_stage [interrupt] in
  let r := fresh_run "thanks" empty_path in
  ((∃ s rest, trace (process (hooks := demo_hooks [interrupt]) t r).2
              = (trace r ++ Acted (name t) true s :: rest)%list)
   ↔ ∃ c1 w2, validate t (ctx r) = (Ok true, c1)
              ∧ execute (middleware t) (world c1) = (Ok true, w2))
  ∧ (∀ c1 w2, validate t (ctx r) = (Ok true, c1) →
       execute (middleware t) (world c1) = (Ok true, w2) →
       let r3 := {| ctx := {| world := stamp (name t) w2; tpath := tpath c1 |};
                    trace := trace r |} in
       is_Some (processed (state_of r3) !! name t)
       ∧ process (hooks := demo_hooks [interrupt]) t r
         = match called t true r3 with
           | (Reject _, r4) => called t false r4
           | o => o
           end)
  ∧ ∀ c1, validate t (ctx r) = (Ok false, c1) →
      process (hooks := demo_hooks [interrupt]) t r
      = called t false {| ctx := c1; trace := trace r |}.
Proof.
  intros t r.
  apply (process_without_branches (hooks := demo_hooks [interrupt]) t r); reflexivity.
Defined.

Lemma no_message_adapter_rejects_witness :
  (∀ envelope,
     dispatch (hooks := demo_hooks []) envelope bare_world
     = (Throw "[thought] message adapter not found",
        begin_sequence "dispatch"
          (set_b (state_create None (Some [envelope])) bare_world), []))
  ∧ (∀ state, exit state = false →
       respond (hooks := demo_hooks []) state bare_world
       = (Throw "[thought] message adapter not found",
          begin_sequence "respond" (set_b state bare_world), [])).
Proof.
  eapply (no_message_adapter_rejects (hooks := demo_hooks [])); reflexivity.
Defined.

(** The second envelope of the queue is the pending one. *)
Lemma respond_action_marks_witness :
  ∃ w3,
    respond_action (hooks := demo_hooks []) true queue_world = (Ok (), w3)
    ∧ queued (b w3) 1 = Some (with_responded (now queue_world) blank_envelope)
    ∧ (∀ j, j ≠ 1%nat → queued (b w3) j = queued (b queue_world) j)
    ∧ is_Some (dispatchedEnvelope (b w3))
    ∧ ∀ j e', pendingEnvelope (b w3) = Some (j, e') → (1 < j)%nat.
Proof.
  apply (respond_action_marks (hooks := demo_hooks []) queue_world queue_world
           1 blank_envelope); [by eexists | reflexivity | reflexivity | reflexivity].
Defined.

End ThoughtSequences.

(** ** Settings *)

Module SettingsFacts.

Import Settings.

Lemma safeName_chars (name : string) :
  chars (safeName name) = filter (λ c, is_name_char c = true) (chars name).
Proof.
  unfold chars. induction name as [|c name IH]; [done|]. simpl.
  rewrite filter_cons. destruct (decide (is_name_char c = true)) as [Hc|Hc].
  - rewrite Hc. simpl. by rewrite IH.
  - apply not_true_is_false in Hc. by rewrite Hc.
Qed.

Lemma chars_inj (s1 s2 : string) : chars s1 = chars s2 → s1 = s2.
Proof.
  unfold chars. intros H.
  by rewrite <- (string_of_list_ascii_of_string s1), H, string_of_list_ascii_of_string.
Qed.

(** [safeName] keeps the letters, digits, underscores and hyphens of a
    name, in their order, and nothing else: a name is returned as it is
    exactly when it has no other character, and a safe name is not changed
    by a second pass. *)
Theorem safeName_keeps_name_chars (name : string) :
  chars (safeName name) = filter (λ c, is_name_char c = true) (chars name)
  ∧ Forall (λ c, is_name_char c = true) (chars (safeName name))
  ∧ (safeName name = name ↔ Forall (λ c, is_name_char c = true) (chars name))
  ∧ safeName (safeName name) = safeName name.
Proof.
  split; [apply safeName_chars|]. split; [|split].
  - rewrite safeName_chars. apply Forall_forall.
    by intros c [Hc _]%list_elem_of_filter.
  - split.
    + intros H. rewrite <- H, safeName_chars. apply Forall_forall.
      by intros c [Hc _]%list_elem_of_filter.
    + intros H. apply chars_inj. rewrite safeName_chars.
      induction H as [|c l Hc Hl IH]; [done|].
      rewrite filter_cons, decide_True by done. by rewrite IH.
  - apply chars_inj. rewrite !safeName_chars.
    induction (chars name) as [|c l IH]; [done|].
    rewrite filter_cons. destruct (decide (is_name_char c = true)) as [Hc|Hc].
    + rewrite filter_cons, decide_True by done. by rewrite IH.
    + done.
Qed.

Lemma lower_of_upper (c : ascii) :
  is_upper c = true → is_upper (Mongo.lower_ascii c) = false.
Proof.
  unfold is_upper, in_range, Mongo.lower_ascii. intros H. rewrite H. simpl.
  apply andb_true_iff in H as [H1 H2].
  apply Nat.leb_le in H1. apply Nat.leb_le in H2.
  rewrite nat_ascii_embedding by lia.
  apply andb_false_iff. right. apply Nat.leb_gt. lia.
Qed.

Lemma hyphenKey_fixed (key : string) :
  hyphenKey key = key ↔ Forall (λ c, is_upper c = false) (chars key).
Proof.
  unfold chars. induction key as [|c key IH]; simpl.
  { split; [intros _; by apply Forall_nil | done]. }
  destruct (is_upper c) eqn:Hc.
  - split.
    + by intros [= <- Hk].
    + intros [Hc' _]%Forall_cons. congruence.
  - split.
    + intros [= Hk]. apply Forall_cons. split; [done|]. by apply IH.
    + intros [_ Hk]%Forall_cons. f_equal. by apply IH.
Qed.

(** The hyphenated form of a key has no upper-case letter, every such
    letter being replaced by a hyphen and its lower-case letter; a key is
    its own hyphenated form exactly when it has no upper-case letter. *)
Theorem hyphenKey_has_no_upper_case (key : string) :
  Forall (λ c, is_upper c = false) (chars (hyphenKey key))
  ∧ (hyphenKey key = key ↔ Forall (λ c, is_upper c = false) (chars key))
  ∧ String.length (hyphenKey key)
    = (String.length key
       + List.length (filter (λ c, is_upper c = true) (chars key)))%nat.
Proof.
  assert (is_upper "-" = false) as Hdash by reflexivity.
  assert (∀ k, (String.length k ≤ String.length (hyphenKey k))%nat) as Hlen.
  { induction k as [|c k IH]; simpl; [lia|]. destruct (is_upper c); simpl; lia. }
  induction key as [|c key (IH1 & IH2 & IH3)]; unfold chars in *; simpl.
  { split; [by apply Forall_nil|]. split; [|done]. split; [|done].
    intros _. by apply Forall_nil. }
  rewrite filter_cons. destruct (decide (is_upper c = true)) as [Hc|Hc].
  - rewrite Hc. simpl. split; [|split].
    + apply Forall_cons. split; [done|]. apply Forall_cons. split; [|done].
      by apply lower_of_upper.
    + split.
      * intros [= <- Hk]. done.
      * intros [Hc' _]%Forall_cons. congruence.
    + simpl. rewrite IH3. lia.
  - apply not_true_is_false in Hc. rewrite Hc. simpl. split; [|split].
    + apply Forall_cons. by split.
    + split.
      * intros [= Hk]. apply Forall_cons. split; [done|]. by apply IH2.
      * intros [_ Hk]%Forall_cons. f_equal. by apply IH2.
    + by rewrite IH3.
Qed.

Lemma reloadConfig_get (argv : gmap string Value) (s : Settings) (key : string)
    (v : Value) :
  get key (reloadConfig argv s) = Some v
  ↔ argv !! key = Some v ∧ is_Some (options s !! hyphenKey key).
Proof.
  unfold get, reloadConfig, loadConfig. simpl.
  rewrite map_lookup_filter_Some. simpl.
  by rewrite lookup_fmap, fmap_is_Some.
Qed.

(** An argument under the name of a declared option is loaded into the
    config exactly when the name has no upper-case letter or its hyphenated
    form is a declared option too; and whatever is loaded is an argument
    whose hyphenated key is declared. *)
Theorem loadConfig_keeps_declared (argv : gmap string Value) (s : Settings)
    (key : string) (v : Value) :
  (get key (reloadConfig argv s) = Some v →
     argv !! key = Some v ∧ is_Some (options s !! hyphenKey key))
  ∧ (is_Some (options s !! key) → argv !! key = Some v →
     (get key (reloadConfig argv s) = Some v
      ↔ Forall (λ c, is_upper c = false) (chars key)
        ∨ is_Some (options s !! hyphenKey key))).
Proof.
  split; [by intros ?%reloadConfig_get|].
  intros Hdecl Harg. rewrite reloadConfig_get. split.
  - intros [_ H]. by right.
  - intros [Hk|Hk]; [|done]. split; [done|].
    apply hyphenKey_fixed in Hk. by rewrite Hk.
Qed.

(** [extend] declares the new options beside the old ones and reloads:
    an argument is in the config afterwards exactly when its hyphenated key
    is a new or an old option.  What [set] had stored is replaced by the
    reload: the config after [extend] is the same with or without it. *)
Theorem extend_reloads (argv : gmap string Value) (more : gmap string Options)
    (s : Settings) (key : string) (v value : Value) :
  (get key (extend argv more s) = Some v
   ↔ argv !! key = Some v
     ∧ (is_Some (more !! hyphenKey key) ∨ is_Some (options s !! hyphenKey key)))
  ∧ get key (set key value s) = Some value
  ∧ get key (extend argv more (set key value s)) = get key (extend argv more s).
Proof.
  split; [|split].
  - unfold extend. rewrite reloadConfig_get. simpl.
    by rewrite lookup_union_is_Some.
  - unfold get, set. simpl. by rewrite lookup_insert_eq.
  - reflexivity.
Qed.

(** With the options the class declares, a config loaded from any
    arguments has the keys whose hyphenated form is one of the nine
    declared names only: it has no [nlu-min-length], under that name or
    as [nluMinLength]. *)
Theorem new_Settings_keys (argv : gmap string Value) (key : string) :
  (is_Some (get key (new_Settings argv)) →
     hyphenKey key ∈ ["name"; "alias"; "log-level"; "auto-save"; "message-adapter";
                      "nlu-adapter"; "storage-adapter"; "webhook-adapter";
                      "analytics-adapter"])
  ∧ get "nlu-min-length" (new_Settings argv) = None
  ∧ get "nluMinLength" (new_Settings argv) = None.
Proof.
  assert (∀ k, is_Some (get k (new_Settings argv)) →
               hyphenKey k ∈ ["name"; "alias"; "log-level"; "auto-save";
                              "message-adapter"; "nlu-adapter"; "storage-adapter";
                              "webhook-adapter"; "analytics-adapter"]) as H.
  { intros k [v Hv]. apply reloadConfig_get in Hv as [_ [o Ho]]. simpl in Ho.
    apply (elem_of_list_to_map_2 (M := gmap string)) in Ho.
    apply (list_elem_of_fmap_2 fst) in Ho. exact Ho. }
  split; [apply H|].
  split.
  - destruct (get "nlu-min-length" (new_Settings argv)) as [v|] eqn:Hg; [|done].
    specialize (H "nlu-min-length" (ex_intro _ v Hg)).
    change (hyphenKey "nlu-min-length") with "nlu-min-length" in H.
    repeat (apply elem_of_cons in H as [[=]|H]). by apply elem_of_nil in H.
  - destruct (get "nluMinLength" (new_Settings argv)) as [v|] eqn:Hg; [|done].
    specialize (H "nluMinLength" (ex_intro _ v Hg)).
    change (hyphenKey "nluMinLength") with "nlu-min-length" in H.
    repeat (apply elem_of_cons in H as [[=]|H]). by apply elem_of_nil in H.
Qed.

End SettingsFacts.
